(** * Aggregators of [feedly/aggregators/base.py]

    A shallow embedding of [BaseAggregator] (grouping, ranking, merging of
    aggregated activities) and of its two reference strategies
    [ModulusAggregator] and [RecentVerbAggregator], with the properties of
    the grouping, ranking and merge steps.

    Python objects that the code mutates ([AggregatedActivity] buckets) live
    in an explicit object store; a bucket is referred to by its location.
    Exceptions are values of the type [exn]; a method is a function from
    the store to either an exception or a result and a new store. *)

From Stdlib Require Import ZArith Lia Sorted Ascii.
From stdpp Require Import base option list sorting strings pretty.

(** ** Data model *)

(** Modelled from the spec: the [Activity] record of [feedly.activity] is
    not part of this file's source.  The code reads [object_id], [verb.id]
    and [time] of an activity and never writes to it; an activity is an
    immutable value here. *)
Record Activity := mkActivity {
  object_id : Z;
  verb_id : Z;
  time : Z
}.

Global Instance Activity_eq_dec : EqDecision Activity.
Proof. solve_decision. Defined.

(** Modelled from the spec: the class [AggregatedActivity] of
    [feedly.activity] is not part of this file's source.  A bucket has a
    [group] key, set once by the constructor, and an insertion-ordered
    sequence of [activities]. *)
Record AggregatedActivity (K : Type) := mkAggregated {
  group : K;
  activities : list Activity
}.
Arguments mkAggregated {K} _ _.
Arguments group {K} _.
Arguments activities {K} _.

(** Python exceptions raised by the modelled code.  [InvalidReference] is
    not a Python exception: it is the outcome of dereferencing a location
    that the store does not hold, which no Python program can do. *)
Inductive exn :=
  | ValueError (msg : string)
  | ZeroDivisionError (msg : string)
  | KeyError
  | AttributeError (msg : string)
  | InvalidReference.

Inductive result (A : Type) :=
  | Ok (a : A)
  | Raise (e : exn).
Arguments Ok {A} _.
Arguments Raise {A} _.

Definition is_Ok {A} (r : result A) : Prop := ∃ a, r = Ok a.

Global Instance exn_eq_dec : EqDecision exn.
Proof. solve_decision. Defined.

Global Instance result_eq_dec {A} `{EqDecision A} : EqDecision (result A).
Proof. solve_decision. Defined.

(** ** The object store and the method monad *)

Abbreviation loc := nat (only parsing).

(** The store: the bucket at location [l] is the [l]-th element. *)
Abbreviation heap K := (list (AggregatedActivity K)) (only parsing).

Section runtime.
Context {K : Type}.

Definition M (A : Type) := heap K → result (A * heap K).

Definition ret {A} (a : A) : M A := λ h, Ok (a, h).

Definition bind {A B} (m : M A) (f : A → M B) : M B :=
  λ h, match m h with
       | Ok (a, h') => f a h'
       | Raise e => Raise e
       end.

Definition raise {A} (e : exn) : M A := λ _, Raise e.

Definition lift {A} (r : result A) : M A :=
  λ h, match r with Ok a => Ok (a, h) | Raise e => Raise e end.

(** [for x in l: acc = body(acc, x)] *)
Fixpoint for_each {A S} (body : S → A → M S) (l : list A) (acc : S) : M S :=
  match l with
  | [] => ret acc
  | x :: l' => bind (body acc x) (for_each body l')
  end.

(** [[f(x) for x in l]] *)
Fixpoint list_comp {A B} (f : A → M B) (l : list A) : M (list B) :=
  match l with
  | [] => ret []
  | x :: l' => bind (f x) (λ y, bind (list_comp f l') (λ ys, ret (y :: ys)))
  end.

(** Attribute reads [a.group] and [a.activities]. *)
Definition read (l : loc) : M (AggregatedActivity K) :=
  λ h, match h !! l with
       | Some b => Ok (b, h)
       | None => Raise InvalidReference
       end.

Definition get_attr_group (l : loc) : M K :=
  bind (read l) (λ b, ret (group b)).

Definition get_attr_activities (l : loc) : M (list Activity) :=
  bind (read l) (λ b, ret (activities b)).

(** Modelled from the spec: the constructor [AggregatedActivity(group)]
    makes a new, empty bucket for the key. *)
Definition new_AggregatedActivity (g : K) : M loc :=
  λ h, Ok (length h, h ++ [mkAggregated g []]).

(** Modelled from the spec: [AggregatedActivity.append(activity)] puts the
    activity at the end of the bucket's [activities], in place. *)
Definition append (l : loc) (a : Activity) : M unit :=
  λ h, match h !! l with
       | Some b =>
           Ok (tt, <[l := mkAggregated (group b) (activities b ++ [a])]> h)
       | None => Raise InvalidReference
       end.

(** [copy.deepcopy] of a bucket: a new object with the same group and a
    copy of the activity list.  Activities are immutable values, so their
    copies are equal to the originals. *)
Definition deepcopy (l : loc) : M loc :=
  λ h, match h !! l with
       | Some b => Ok (length h, h ++ [mkAggregated (group b) (activities b)])
       | None => Raise InvalidReference
       end.
End runtime.

Arguments M : clear implicits.

Declare Scope method_scope.
Delimit Scope method_scope with method.
Notation "x <- m ;; k" := (bind m (λ x, k))
  (at level 100, m at next level, right associativity) : method_scope.
Notation "m ;;; k" := (bind m (λ _, k))
  (at level 100, right associativity) : method_scope.

(** ** Python dictionaries

    A [dict] is kept as the list of its items in insertion order; a key
    occurs at most once.  Assigning to a key that is present replaces its
    value where it stands. *)
Abbreviation dict K V := (list (K * V)) (only parsing).

Section dict.
Context {K : Type} `{EqDecision K} {V : Type}.
Implicit Types (d : dict K V).

(** [k in d] *)
Fixpoint dict_contains d (k : K) : bool :=
  match d with
  | [] => false
  | (k', _) :: d' => if decide (k = k') then true else dict_contains d' k
  end.

(** [d.get(k)] *)
Fixpoint dict_get d (k : K) : option V :=
  match d with
  | [] => None
  | (k', v) :: d' => if decide (k = k') then Some v else dict_get d' k
  end.

(** [d[k]] *)
Definition dict_getitem d (k : K) : result V :=
  match dict_get d k with
  | Some v => Ok v
  | None => Raise KeyError
  end.

(** [d[k] = v] *)
Fixpoint dict_setitem d (k : K) (v : V) : dict K V :=
  match d with
  | [] => [(k, v)]
  | (k', v') :: d' =>
      if decide (k = k') then (k', v) :: d' else (k', v') :: dict_setitem d' k v
  end.

(** [dict(items)]: later items win *)
Definition dict_of_items (items : list (K * V)) : dict K V :=
  fold_left (λ d kv, dict_setitem d kv.1 kv.2) items [].
End dict.

(** ** [list.sort(key=..., reverse=...)]

    The keys of all items are computed first, in list order; an exception
    of the key function ends the call.  The sort is stable.  With
    [reverse=True] the list is reversed before and after sorting, so that
    items with equal keys keep their original order. *)
Section sorting.
Context {T A : Type} (ltb : T → T → bool).

Fixpoint insert_by_key (x : T * A) (l : list (T * A)) : list (T * A) :=
  match l with
  | [] => [x]
  | y :: l' => if ltb y.1 x.1 then y :: insert_by_key x l' else x :: y :: l'
  end.

Fixpoint stable_sort (l : list (T * A)) : list (T * A) :=
  match l with
  | [] => []
  | x :: l' => insert_by_key x (stable_sort l')
  end.

Definition sort_decorated (reverse : bool) (l : list (T * A)) : list (T * A) :=
  if reverse then rev (stable_sort (rev l)) else stable_sort l.

Definition list_sort {K} (key : A → M K T) (reverse : bool) (l : list A)
  : M K (list A) :=
  (keys <- list_comp key l ;;
   ret ((sort_decorated reverse (zip keys l)).*2))%method.
End sorting.

(** ** The strategy interface

    [get_group] and [rank] are the two methods that a concrete aggregator
    overrides; [self.get_group] and [self.rank] in the base class dispatch
    to them. *)
Class Aggregator (K : Type) := {
  get_group : Activity → result K;
  rank : list loc → M K (list loc)
}.

Module BaseAggregator.
Section methods.
Context {K : Type} `{EqDecision K}.

(** [aggregate_dict.values()]: the values of a dictionary, in an order
    that Python 2 leaves unspecified. *)
Variable dict_values : dict K loc → list loc.

Variable self : Aggregator K.

(** One round of the loop of [group_activities]. *)
Definition group_activities_step (aggregate_dict : dict K loc)
    (activity : Activity) : M K (dict K loc) :=
  (group <- lift (get_group activity) ;;
   aggregate_dict <-
     (if negb (dict_contains aggregate_dict group) then
        b <- new_AggregatedActivity group ;;
        ret (dict_setitem aggregate_dict group b)
      else ret aggregate_dict) ;;
   b <- lift (dict_getitem aggregate_dict group) ;;
   append b activity ;;;
   ret aggregate_dict)%method.

Definition group_activities (activities : list Activity) : M K (dict K loc) :=
  for_each group_activities_step activities [].

Definition aggregate (activities : list Activity) : M K (list loc) :=
  (aggregate_dict <- group_activities activities ;;
   let aggregated_activities := dict_values aggregate_dict in
   ranked_aggregates <- rank aggregated_activities ;;
   ret ranked_aggregates)%method.

(** One round of the loop of [merge] over [new_aggregated]; [acc] holds
    the lists [new] and [changed].  The key is present in the
    dictionary exactly when [dict.get] gives a bucket; [None] has no
    [append]. *)
Definition merge_step (current_activities_dict : dict K loc)
    (acc : list loc * list (loc * loc)) (aggregated : loc)
  : M K (list loc * list (loc * loc)) :=
  (g <- get_attr_group aggregated ;;
   if negb (dict_contains current_activities_dict g) then
     ret (acc.1 ++ [aggregated], acc.2)
   else
     match dict_get current_activities_dict g with
     | None => raise (AttributeError "'NoneType' object has no attribute 'append'")
     | Some current_aggregated =>
         new_aggregated <- deepcopy current_aggregated ;;
         acts <- get_attr_activities aggregated ;;
         for_each (λ _ activity, append new_aggregated activity) acts tt ;;;
         ret (acc.1, acc.2 ++ [(current_aggregated, new_aggregated)])
     end)%method.

Definition merge (aggregated new_aggregated : list loc)
  : M K (list loc * list (loc * loc) * list loc) :=
  (items <- list_comp (λ a, g <- get_attr_group a ;; ret (g, a)) aggregated ;;
   let current_activities_dict := dict_of_items items in
   acc <- for_each (merge_step current_activities_dict) new_aggregated ([], []) ;;
   ret (acc.1, acc.2, []))%method.
End methods.

(** The base class leaves both strategy methods unimplemented. *)
Definition get_group {K} (activity : Activity) : result K :=
  Raise (ValueError "not implemented").

Definition rank {K} (aggregated_activities : list loc) : M K (list loc) :=
  raise (ValueError "not implemented").

Definition self {K} : Aggregator K :=
  Build_Aggregator _ get_group rank.
End BaseAggregator.

(** [max(ids)] of a list of integers *)
Definition py_max (ids : list Z) : result Z :=
  match ids with
  | [] => Raise (ValueError "max() arg is an empty sequence")
  | x :: ids' => Ok (fold_left Z.max ids' x)
  end.

Module ModulusAggregator.
Section methods.
Variable modulus : Z.

Definition sort_key (aggregated_activity : loc) : M Z Z :=
  (acts <- get_attr_activities aggregated_activity ;;
   let aggregated_activity_ids := object_id <$> acts in
   lift (py_max aggregated_activity_ids))%method.

Definition rank (aggregated_activities : list loc) : M Z (list loc) :=
  list_sort Z.ltb sort_key false aggregated_activities.

Definition get_group (activity : Activity) : result Z :=
  if decide (modulus = 0%Z)
  then Raise (ZeroDivisionError "integer division or modulo by zero")
  else Ok (object_id activity `mod` modulus)%Z.

Definition self : Aggregator Z :=
  Build_Aggregator _ get_group rank.
End methods.

(** [ModulusAggregator()] *)
Definition default : Aggregator Z := self 3%Z.
End ModulusAggregator.

(** Modelled from the spec: the attribute [updated_at] of a bucket is not
    part of this file's source; it is the latest [time] among the bucket's
    activities.  A bucket without activities has none, [None] here. *)
Definition updated_at {K} (b : AggregatedActivity K) : option Z :=
  match time <$> activities b with
  | [] => None
  | t :: ts => Some (fold_left Z.max ts t)
  end.

(** The attribute read [a.updated_at]. *)
Definition get_attr_updated_at {K} (l : loc) : M K (option Z) :=
  bind (read l) (λ b, ret (updated_at b)).

(** The order of the keys of [RecentVerbAggregator.rank].  Python 2 orders
    [None] before every number; how it compares with the timestamps of the
    activities is decided outside this file's source, and the properties of
    [rank] below are about buckets that hold an activity. *)
Definition option_ltb (x y : option Z) : bool :=
  match x, y with
  | None, None => false
  | None, Some _ => true
  | Some _, None => false
  | Some a, Some b => (a <? b)%Z
  end.

Module RecentVerbAggregator.
Section methods.
(** [str(activity.time.date())]: the calendar date of a timestamp, as
    text.  Dates are rendered by Python's [datetime], outside this
    file's source. *)
Variable date_str : Z → string.

Definition rank (aggregated_activities : list loc) : M string (list loc) :=
  list_sort option_ltb get_attr_updated_at true aggregated_activities.

Definition get_group (activity : Activity) : result string :=
  let verb := verb_id activity in
  let date := date_str (time activity) in
  let group := (pretty verb +:+ "-" +:+ date)%string in
  Ok group.

Definition self : Aggregator string :=
  Build_Aggregator _ get_group rank.
End methods.
End RecentVerbAggregator.

(** * Vocabulary of the properties *)

Section store_vocabulary.
Context {K : Type} `{EqDecision K}.
Implicit Types (h : heap K) (d : dict K loc) (old new : list loc) (k : K).

(** The key of the bucket at a location. *)
Definition group_of h l : option K := group <$> h !! l.

(** Every location of the list refers to a bucket of the store. *)
Definition allocated h (ls : list loc) : Prop :=
  Forall (λ l, (l < length h)%nat) ls.

(** The old-generation bucket that [merge] holds for a key: the last
    bucket of [old] with that key. *)
Definition old_for h old k : option loc :=
  last (filter (λ a, group_of h a = Some k) old).

(** The old-generation bucket for the key of a new-generation bucket. *)
Definition matching_old h old (b : loc) : option loc :=
  k ← group_of h b; old_for h old k.

(** The key of bucket [b] is the key of a bucket of [old]. *)
Definition key_in h old (b : loc) : Prop :=
  Exists (λ o, group_of h o = group_of h b) old.

(** The content of a merged bucket. *)
Definition merged_bucket (o b : AggregatedActivity K) : AggregatedActivity K :=
  mkAggregated (group o) (activities o ++ activities b).

(** What a pair [p] of [changed] is for the bucket [b] of [new]: its first
    component is the old bucket for the key of [b], its second component
    is a location that the store [h] did not hold, and the bucket there
    in the store [h'] is the old bucket's content followed by the
    activities of [b]. *)
Definition merged_pair h h' old (b : loc) (p : loc * loc) : Prop :=
  matching_old h old b = Some p.1 ∧ (length h ≤ p.2)%nat ∧
  ∃ ob bb, h !! p.1 = Some ob ∧ h !! b = Some bb ∧
    h' !! p.2 = Some (merged_bucket ob bb).

(** The items that [merge] passes to [dict]. *)
Definition old_items h old : list (K * loc) :=
  omap (λ a, b ← h !! a; Some (group b, a)) old.

(** The bucket that the dictionary [d] holds for the key of bucket [b]. *)
Definition hit h d (b : loc) : option loc :=
  bb ← h !! b; dict_get d (group bb).

(** The merged bucket that one round of the loop of [merge] makes for [b]. *)
Definition copy_for h d (b : loc) : option (AggregatedActivity K) :=
  o ← hit h d b; ob ← h !! o; bb ← h !! b; Some (merged_bucket ob bb).

(** Every value of the dictionary refers to a bucket of the store. *)
Definition dict_allocated h d : Prop :=
  ∀ k o, dict_get d k = Some o → (o < length h)%nat.

End store_vocabulary.

Section grouping_vocabulary.
Context {K : Type} `{EqDecision K} (self : Aggregator K).
Implicit Types (h : heap K) (d : dict K loc) (k : K).

(** The activities of a list whose group is [k], in the order of the
    list. *)
Definition with_group k (acts : list Activity) : list Activity :=
  filter (λ a, get_group a = Ok k) acts.

(** The state of the loop of [group_activities] after the activities
    [done], started in the store [h0]: the dictionary [d] maps each group
    key of [done], once, to a bucket of its own that [h0] did not hold;
    the bucket has that key and holds the activities of [done] with that
    key, in the order of [done]. *)
Definition grouped h0 (done : list Activity) d h : Prop :=
  NoDup d.*1 ∧ NoDup d.*2 ∧ h0 `prefix_of` h ∧
  (∀ k l, (k, l) ∈ d →
     (length h0 ≤ l)%nat ∧ h !! l = Some (mkAggregated k (with_group k done))) ∧
  (∀ a, a ∈ done → ∃ k, get_group a = Ok k ∧ k ∈ d.*1) ∧
  (∀ k, k ∈ d.*1 → with_group k done ≠ []).

End grouping_vocabulary.

(** ** Concrete activities and stores *)

Definition A1 : Activity := mkActivity 1 1 10.
Definition A2 : Activity := mkActivity 2 1 20.
Definition A3 : Activity := mkActivity 3 2 30.
Definition A4 : Activity := mkActivity 4 1 40.

(** Old generation: bucket 0.  New generation: buckets 1 and 2. *)
Definition store_ab : heap string :=
  [mkAggregated "a" [A1]; mkAggregated "a" [A2]; mkAggregated "b" [A3]].

(** A new generation (buckets 1 and 2) with the same key twice. *)
Definition store_aa : heap string :=
  [mkAggregated "a" [A1]; mkAggregated "a" [A2]; mkAggregated "a" [A3]].

(** Two buckets that hold activities. *)
Definition store_ranked : heap Z :=
  [mkAggregated 1%Z [A1; A3]; mkAggregated 2%Z [A2]].

(** Dictionary values in insertion order. *)
Definition insertion_order (d : dict Z loc) : list loc := d.*2.

(** Three buckets of which the first two have the same greatest id. *)
Definition store_ties : heap Z :=
  [mkAggregated 0%Z [A3]; mkAggregated 1%Z [A1; A3]; mkAggregated 2%Z [A1]].

(** Dictionary values in the reverse of the insertion order. *)
Definition reverse_order (d : dict Z loc) : list loc := reverse d.*2.

(** Dictionary values in insertion order, for any type of keys. *)
Definition values_in_order {K} (d : dict K loc) : list loc := d.*2.

(** The text has no dash. *)
Fixpoint no_dash (s : string) : Prop :=
  match s with
  | EmptyString => True
  | String c s' => c ≠ "-"%char ∧ no_dash s'
  end.

(** * Properties *)

(** ** Lists *)
Lemma filter_iff_elem_of {A} (P Q : A → Prop)
    `{!∀ x, Decision (P x), !∀ x, Decision (Q x)} (l : list A) :
  (∀ x, x ∈ l → P x ↔ Q x) → filter P l = filter Q l.
Proof.
  induction l as [|x l IH]; intros HPQ; [done|].
  rewrite !filter_cons, IH by (intros; apply HPQ; by right).
  destruct (decide (P x)) as [HP|HP].
  - rewrite decide_True; [done|]. apply HPQ; [left|done].
  - rewrite decide_False; [done|]. intros HQ. apply HP, HPQ; [left|done].
Qed.

Lemma NoDup_snd_inj {A B} (l : list (A * B)) x1 x2 y :
  NoDup l.*2 → (x1, y) ∈ l → (x2, y) ∈ l → x1 = x2.
Proof.
  induction l as [|[x0 y0] l IH]; simpl.
  - by intros _ ?%elem_of_nil.
  - rewrite NoDup_cons. intros [Hy0 Hnd].
    intros [[= -> ->]|H1]%elem_of_cons [[= ->]|H2]%elem_of_cons.
    + done.
    + destruct Hy0. by apply (list_elem_of_fmap_2 snd) in H2.
    + subst. destruct Hy0. by apply (list_elem_of_fmap_2 snd) in H1.
    + by apply IH.
Qed.

Lemma omap_cons {A B} (f : A → option B) x l :
  omap f (x :: l) = match f x with Some y => y :: omap f l | None => omap f l end.
Proof. done. Qed.

(** ** Dictionaries *)
Section dict_facts.
Context {K : Type} `{EqDecision K} {V : Type}.
Implicit Types (d : dict K V) (k : K) (v : V).

Lemma dict_contains_get d k :
  dict_contains d k = match dict_get d k with Some _ => true | None => false end.
Proof.
  induction d as [|[k' v'] d IH]; simpl; [done|].
  by destruct (decide (k = k')).
Qed.

Lemma dict_get_setitem d k v k' :
  dict_get (dict_setitem d k v) k' =
    if decide (k' = k) then Some v else dict_get d k'.
Proof.
  induction d as [|[k0 v0] d IH]; simpl.
  - by destruct (decide (k' = k)).
  - destruct (decide (k = k0)) as [->|Hne]; simpl.
    + by destruct (decide (k' = k0)).
    + rewrite IH. destruct (decide (k' = k0)) as [->|]; [|done].
      by destruct (decide (k0 = k)) as [->|].
Qed.

Lemma dict_setitem_fresh d k v :
  dict_get d k = None → dict_setitem d k v = d ++ [(k, v)].
Proof.
  induction d as [|[k0 v0] d IH]; simpl; [done|].
  destruct (decide (k = k0)); [done|]. intros Hd. by rewrite IH.
Qed.

Lemma dict_get_elem_of d k v : dict_get d k = Some v → (k, v) ∈ d.
Proof.
  induction d as [|[k0 v0] d IH]; simpl; [done|].
  destruct (decide (k = k0)) as [->|].
  - intros [= ->]. left.
  - intros Hd. right. by apply IH.
Qed.

Lemma dict_get_None d k : dict_get d k = None ↔ k ∉ d.*1.
Proof.
  induction d as [|[k0 v0] d IH]; simpl.
  - split; [intros _; apply not_elem_of_nil|done].
  - rewrite not_elem_of_cons, <- IH.
    destruct (decide (k = k0)) as [->|]; [|tauto].
    split; [done|]. by intros [? _].
Qed.

Lemma dict_get_NoDup d k v : NoDup d.*1 → (k, v) ∈ d → dict_get d k = Some v.
Proof.
  induction d as [|[k0 v0] d IH]; simpl.
  - intros _ Hin. by apply elem_of_nil in Hin.
  - rewrite NoDup_cons. intros [Hk0 Hnd] Hin.
    apply elem_of_cons in Hin as [[= -> ->]|Hin].
    + by rewrite decide_True.
    + destruct (decide (k = k0)) as [->|]; [|by apply IH].
      destruct Hk0. apply list_elem_of_fmap. by exists (k0, v).
Qed.

(** [dict(items)] maps a key to the value of the last item with that key. *)
Lemma dict_get_fold_setitem (items : list (K * V)) d k :
  dict_get (fold_left (λ d kv, dict_setitem d kv.1 kv.2) items d) k =
    match last (filter (λ kv, kv.1 = k) items) with
    | Some kv => Some kv.2
    | None => dict_get d k
    end.
Proof.
  induction items as [|kv items IH] using rev_ind; [done|].
  rewrite fold_left_app, filter_app. simpl.
  rewrite dict_get_setitem, IH. rewrite filter_cons, filter_nil.
  destruct (decide (k = kv.1)) as [->|Hne].
  - rewrite decide_True by done. by rewrite last_snoc.
  - rewrite decide_False by done. by rewrite app_nil_r.
Qed.

Lemma dict_get_of_items (items : list (K * V)) k :
  dict_get (dict_of_items items) k = snd <$> last (filter (λ kv, kv.1 = k) items).
Proof.
  unfold dict_of_items. rewrite dict_get_fold_setitem.
  by destruct (last _).
Qed.
End dict_facts.

(** ** The object store *)
Section store_facts.
Context {K : Type}.
Implicit Types (h : heap K) (l n : loc) (b : AggregatedActivity K).

Lemma bind_Ok {A B} (m : M K A) (f : A → M K B) h a h' :
  m h = Ok (a, h') → bind m f h = f a h'.
Proof. unfold bind. by intros ->. Qed.

Lemma bind_Raise {A B} (m : M K A) (f : A → M K B) h e :
  m h = Raise e → bind m f h = Raise e.
Proof. unfold bind. by intros ->. Qed.

Lemma bind_Ok_inv {A B} (m : M K A) (f : A → M K B) h r :
  bind m f h = Ok r → ∃ a h', m h = Ok (a, h') ∧ f a h' = Ok r.
Proof.
  unfold bind. destruct (m h) as [[a h']|e]; [|done]. intros Hf. by exists a, h'.
Qed.

Lemma read_Some h l b : h !! l = Some b → read l h = Ok (b, h).
Proof. unfold read. by intros ->. Qed.

Lemma get_attr_group_Some h l b :
  h !! l = Some b → get_attr_group l h = Ok (group b, h).
Proof. intros Hl. unfold get_attr_group. by rewrite (bind_Ok _ _ _ _ _ (read_Some _ _ _ Hl)). Qed.

Lemma get_attr_activities_Some h l b :
  h !! l = Some b → get_attr_activities l h = Ok (activities b, h).
Proof. intros Hl. unfold get_attr_activities. by rewrite (bind_Ok _ _ _ _ _ (read_Some _ _ _ Hl)). Qed.

Lemma append_Some h l b a :
  h !! l = Some b →
  append l a h = Ok (tt, <[l := mkAggregated (group b) (activities b ++ [a])]> h).
Proof. unfold append. by intros ->. Qed.

Lemma deepcopy_Some h l b :
  h !! l = Some b →
  deepcopy l h = Ok (length h, h ++ [mkAggregated (group b) (activities b)]).
Proof. unfold deepcopy. by intros ->. Qed.

(** The loop [for activity in acts: bucket.append(activity)]. *)
Lemma for_each_append h n b acts :
  h !! n = Some b →
  for_each (λ _ activity, append n activity) acts tt h =
    Ok (tt, <[n := mkAggregated (group b) (activities b ++ acts)]> h).
Proof.
  revert h b. induction acts as [|a acts IH]; intros h b Hn; simpl.
  - unfold ret. rewrite app_nil_r. destruct b as [g acts]. simpl.
    by rewrite list_insert_id.
  - rewrite (bind_Ok _ _ _ _ _ (append_Some _ _ _ a Hn)).
    assert (n < length h)%nat as Hlt by by eapply lookup_lt_Some.
    rewrite (IH _ (mkAggregated (group b) (activities b ++ [a])))
      by by apply list_lookup_insert_eq.
    simpl. by rewrite list_insert_insert_eq, <- app_assoc.
Qed.
End store_facts.

(** ** [merge] *)
Section merge_facts.
Context {K : Type} `{EqDecision K}.
Implicit Types (h : heap K) (d : dict K loc) (old new : list loc) (k : K).

Lemma merge_step_new h d ext acc b bb :
  h !! b = Some bb → dict_get d (group bb) = None →
  BaseAggregator.merge_step d acc b (h ++ ext) = Ok ((acc.1 ++ [b], acc.2), h ++ ext).
Proof.
  intros Hb Hd. unfold BaseAggregator.merge_step.
  rewrite (bind_Ok _ _ _ _ _ (get_attr_group_Some _ _ _ (lookup_app_l_Some _ ext _ _ Hb))).
  by rewrite dict_contains_get, Hd.
Qed.

Lemma merge_step_changed h d ext acc b bb o ob :
  h !! b = Some bb → dict_get d (group bb) = Some o → h !! o = Some ob →
  BaseAggregator.merge_step d acc b (h ++ ext) =
    Ok ((acc.1, acc.2 ++ [(o, length (h ++ ext))]), h ++ ext ++ [merged_bucket ob bb]).
Proof.
  intros Hb Hd Ho. unfold BaseAggregator.merge_step.
  rewrite (bind_Ok _ _ _ _ _ (get_attr_group_Some _ _ _ (lookup_app_l_Some _ ext _ _ Hb))).
  rewrite dict_contains_get, Hd. simpl.
  rewrite (bind_Ok _ _ _ _ _ (deepcopy_Some _ _ _ (lookup_app_l_Some _ ext _ _ Ho))).
  assert (((h ++ ext) ++ [mkAggregated (group ob) (activities ob)]) !! b = Some bb) as Hb'.
  { rewrite <- app_assoc. by apply lookup_app_l_Some. }
  rewrite (bind_Ok _ _ _ _ _ (get_attr_activities_Some _ _ _ Hb')).
  erewrite bind_Ok; [|apply for_each_append, list_lookup_middle; done].
  unfold ret. simpl.
  rewrite insert_app_r_alt by lia. rewrite Nat.sub_diag. simpl.
  by rewrite <- app_assoc.
Qed.

(** The loop of [merge], started with the store [h ++ ext]: buckets of
    [new] and of the dictionary live in [h], copies are put after
    [ext]. *)
Lemma merge_loop h d new : allocated h new → dict_allocated h d →
  ∀ ext acc,
  for_each (BaseAggregator.merge_step d) new acc (h ++ ext) =
    Ok ((acc.1 ++ filter (λ b, hit h d b = None) new,
         acc.2 ++ zip (omap (hit h d) new)
                      (seq (length h + length ext) (length (omap (hit h d) new)))),
        h ++ ext ++ omap (copy_for h d) new).
Proof.
  intros Hnew Hd. induction Hnew as [|b new Hb _ IH]; intros ext [nw ch]; simpl.
  - unfold ret. by rewrite !app_nil_r.
  - apply lookup_lt_is_Some_2 in Hb as [bb Hb].
    unfold copy_for, hit. rewrite Hb. simpl.
    destruct (dict_get d (group bb)) as [o|] eqn:Hget; simpl.
    + destruct (lookup_lt_is_Some_2 h o (Hd _ _ Hget)) as [ob Ho].
      rewrite Ho. simpl.
      rewrite (bind_Ok _ _ _ _ _ (merge_step_changed _ _ ext (nw, ch) _ _ _ _ Hb Hget Ho)).
      rewrite filter_cons_False by (unfold hit; rewrite Hb; simpl; by rewrite Hget).
      rewrite IH. simpl. rewrite !length_app. simpl.
      replace (length h + (length ext + 1))%nat with (S (length h + length ext)) by lia.
      by rewrite <- !app_assoc.
    + rewrite (bind_Ok _ _ _ _ _ (merge_step_new _ _ ext (nw, ch) _ _ Hb Hget)).
      rewrite filter_cons_True by (unfold hit; rewrite Hb; simpl; by rewrite Hget).
      rewrite IH. simpl. by rewrite <- !app_assoc.
Qed.

(** The pairs of [changed] and the copies in the store, one for each
    bucket of [new] whose key the dictionary holds, in the order of
    [new]. *)
Lemma changed_Forall2 h d new : allocated h new → dict_allocated h d →
  ∀ pre post,
  Forall2 (λ b p, hit h d b = Some p.1 ∧ (length pre ≤ p.2)%nat ∧
             ∃ ob bb, h !! p.1 = Some ob ∧ h !! b = Some bb ∧
               (pre ++ omap (copy_for h d) new ++ post) !! p.2
                 = Some (merged_bucket ob bb))
    (filter (λ b, is_Some (hit h d b)) new)
    (zip (omap (hit h d) new)
         (seq (length pre) (length (omap (hit h d) new)))).
Proof.
  intros Hnew Hd. induction Hnew as [|b new Hb _ IH]; intros pre post; simpl.
  - constructor.
  - apply lookup_lt_is_Some_2 in Hb as [bb Hb].
    destruct (hit h d b) as [o|] eqn:Hhit.
    + rewrite filter_cons_True by (by rewrite Hhit).
      assert (dict_get d (group bb) = Some o) as Hget.
      { revert Hhit. unfold hit. by rewrite Hb. }
      destruct (lookup_lt_is_Some_2 h o (Hd _ _ Hget)) as [ob Ho].
      unfold copy_for at 1 2. rewrite Hhit. simpl. rewrite Ho, Hb. simpl.
      constructor.
      * split; [done|]. split; [done|]. exists ob, bb.
        split; [done|]. split; [done|]. by apply list_lookup_middle.
      * specialize (IH (pre ++ [merged_bucket ob bb]) post).
        rewrite length_app in IH. simpl in IH.
        replace (length pre + 1)%nat with (S (length pre)) in IH by lia.
        rewrite <- app_assoc in IH. simpl in IH.
        eapply Forall2_impl; [exact IH|]. simpl.
        intros b' p (? & ? & ?). split; [done|]. split; [lia|done].
    + rewrite filter_cons_False by (rewrite Hhit; by intros [? ?]).
      unfold copy_for at 1 2. rewrite Hhit. simpl. apply IH.
Qed.

Lemma list_comp_items h old : allocated h old →
  list_comp (λ a, g <- get_attr_group a ;; ret (g, a))%method old h =
    Ok (old_items h old, h).
Proof.
  induction 1 as [|a old Ha _ IH]; simpl; [done|].
  apply lookup_lt_is_Some_2 in Ha as [b Ha].
  unfold old_items. simpl. rewrite Ha. simpl.
  erewrite bind_Ok;
    [|by erewrite bind_Ok; [|by apply get_attr_group_Some]].
  by rewrite (bind_Ok _ _ _ _ _ IH).
Qed.

Lemma filter_old_items h old k :
  filter (λ kv, kv.1 = k) (old_items h old) =
    (λ a, (k, a)) <$> filter (λ a, group_of h a = Some k) old.
Proof.
  unfold old_items, group_of. induction old as [|a old IH]; [done|].
  rewrite omap_cons, (filter_cons _ a). destruct (h !! a) as [b|]; simpl.
  - rewrite filter_cons, IH. simpl.
    destruct (decide (group b = k)) as [->|Hne].
    + by rewrite decide_True.
    + rewrite decide_False; [done|]. by intros [= ?].
  - apply IH.
Qed.

Lemma dict_get_old_items h old k :
  dict_get (dict_of_items (old_items h old)) k = old_for h old k.
Proof.
  rewrite dict_get_of_items, filter_old_items, fmap_last. unfold old_for.
  by destruct (last _).
Qed.

Lemma hit_old_items h old b :
  hit h (dict_of_items (old_items h old)) b = matching_old h old b.
Proof.
  unfold hit, matching_old, group_of. destruct (h !! b); simpl; [|done].
  apply dict_get_old_items.
Qed.

Lemma old_for_Some h old k o :
  old_for h old k = Some o → o ∈ old ∧ group_of h o = Some k.
Proof.
  unfold old_for. intros Hl. apply last_Some_elem_of in Hl.
  apply list_elem_of_filter in Hl. tauto.
Qed.

Lemma matching_old_Some h old b o :
  matching_old h old b = Some o →
  o ∈ old ∧ is_Some (group_of h b) ∧ group_of h o = group_of h b.
Proof.
  unfold matching_old. destruct (group_of h b) as [k|]; simpl; [|done].
  intros [? ?]%old_for_Some. eauto.
Qed.

Lemma matching_old_is_Some h old b :
  is_Some (h !! b) → is_Some (matching_old h old b) ↔ key_in h old b.
Proof.
  intros [bb Hb]. unfold matching_old, key_in, group_of at 1. rewrite Hb. simpl.
  assert (group_of h b = Some (group bb)) as Hg by (unfold group_of; by rewrite Hb).
  rewrite Hg, Exists_exists. unfold old_for. split.
  - intros [o Ho]. apply last_Some_elem_of, list_elem_of_filter in Ho.
    exists o. tauto.
  - intros (o & Ho & Hgo).
    destruct (last _) as [o'|] eqn:Hlast; [by eexists|].
    apply last_None in Hlast.
    by destruct (filter_nil_not_elem_of _ _ o Hlast Hgo).
Qed.

Lemma matching_old_None h old b :
  is_Some (h !! b) → matching_old h old b = None ↔ ¬ key_in h old b.
Proof.
  intros Hb. rewrite <- (matching_old_is_Some _ _ _ Hb).
  rewrite eq_None_not_Some. done.
Qed.

Lemma old_dict_allocated h old :
  allocated h old → dict_allocated h (dict_of_items (old_items h old)).
Proof.
  intros Hold k o. rewrite dict_get_old_items. intros [Ho _]%old_for_Some.
  unfold allocated in Hold. rewrite Forall_forall in Hold. by apply Hold.
Qed.

(** The result of [merge] on buckets of the store. *)
Lemma merge_result h old new :
  allocated h old → allocated h new →
  ∃ ch ext,
    BaseAggregator.merge old new h =
      Ok ((filter (λ b, ¬ key_in h old b) new, ch, []), h ++ ext) ∧
    Forall2 (merged_pair h (h ++ ext) old) (filter (key_in h old) new) ch.
Proof.
  intros Hold Hnew.
  set (d := dict_of_items (old_items h old)).
  pose proof (old_dict_allocated _ _ Hold) as Hd. fold d in Hd.
  exists (zip (omap (hit h d) new) (seq (length h) (length (omap (hit h d) new)))),
    (omap (copy_for h d) new).
  assert (∀ b, b ∈ new → is_Some (h !! b)) as Hsome.
  { intros b Hb. apply lookup_lt_is_Some_2.
    unfold allocated in Hnew. rewrite Forall_forall in Hnew. by apply Hnew. }
  split.
  - unfold BaseAggregator.merge.
    rewrite (bind_Ok _ _ _ _ _ (list_comp_items _ _ Hold)). fold d.
    pose proof (merge_loop h d new Hnew Hd [] ([], [])) as Hloop.
    rewrite app_nil_r in Hloop. simpl in Hloop.
    rewrite Nat.add_0_r in Hloop.
    rewrite (bind_Ok _ _ _ _ _ Hloop). unfold ret. simpl.
    rewrite (filter_iff_elem_of (λ b, hit h d b = None) (λ b, ¬ key_in h old b));
      [done|].
    intros b Hb. unfold d. rewrite hit_old_items.
    by apply matching_old_None, Hsome.
  - pose proof (changed_Forall2 h d new Hnew Hd h []) as HF.
    rewrite app_nil_r in HF.
    replace (filter (key_in h old) new)
      with (filter (λ b, is_Some (hit h d b)) new).
    + eapply Forall2_impl; [exact HF|]. simpl.
      intros b p (Hhit & Hle & Hcopy). unfold merged_pair.
      unfold d in Hhit. by rewrite hit_old_items in Hhit.
    + apply filter_iff_elem_of. intros b Hb. unfold d. rewrite hit_old_items.
      by apply matching_old_is_Some, Hsome.
Qed.
End merge_facts.

Section merge_claims.
Context {K : Type} `{EqDecision K}.
Implicit Types (h : heap K) (old new : list loc) (k : K).

Lemma merge_result_pair h h' old new ch o m :
  Forall2 (merged_pair h h' old) (filter (key_in h old) new) ch →
  (o, m) ∈ ch →
  ∃ b, b ∈ new ∧ key_in h old b ∧ merged_pair h h' old b (o, m).
Proof.
  intros HF [i Hi]%list_elem_of_lookup.
  destruct (Forall2_lookup_r _ _ _ _ _ HF Hi) as (b & Hb & Hpair).
  apply list_elem_of_lookup_2, list_elem_of_filter in Hb. exists b. tauto.
Qed.

(** C2. [merge] changes no bucket that the store held before the call, so
    every bucket of [old] keeps its group key and its activity sequence;
    the second component of each pair of [changed] is an object that did
    not exist before the call, hence distinct from the old bucket it is
    paired with. *)
Theorem merge_leaves_old_unchanged h old new :
  allocated h old → allocated h new →
  ∃ nw ch rm h',
    BaseAggregator.merge old new h = Ok ((nw, ch, rm), h') ∧
    (∀ l b, h !! l = Some b → h' !! l = Some b) ∧
    (∀ o m, (o, m) ∈ ch →
       o ∈ old ∧ m ≠ o ∧ h !! m = None ∧ is_Some (h' !! m)).
Proof.
  intros Hold Hnew.
  destruct (merge_result h old new Hold Hnew) as (ch & ext & Hmerge & HF).
  exists (filter (λ b, ¬ key_in h old b) new), ch, [], (h ++ ext).
  split; [done|]. split.
  - intros l b Hl. by apply lookup_app_l_Some.
  - intros o m Hin.
    destruct (merge_result_pair _ _ _ _ _ _ _ HF Hin)
      as (b & _ & _ & Hmatch & Hle & ob & bb & Ho & _ & Hm).
    simpl in *. apply matching_old_Some in Hmatch as [Hin_old _].
    apply lookup_lt_Some in Ho.
    split; [done|]. split; [lia|]. split; [|by eexists].
    by apply lookup_ge_None_2.
Qed.

(** C4. The third component of the result of [merge] is the empty list,
    whatever the two generations are; on buckets of the store [merge]
    does return a result. *)
Theorem merge_removed_always_empty h old new :
  (allocated h old → allocated h new →
     is_Ok (BaseAggregator.merge old new h)) ∧
  (∀ nw ch rm h',
     BaseAggregator.merge old new h = Ok ((nw, ch, rm), h') → rm = []).
Proof.
  split.
  - intros Hold Hnew.
    destruct (merge_result h old new Hold Hnew) as (ch & ext & -> & _).
    by eexists.
  - intros nw ch rm h'. unfold BaseAggregator.merge.
    intros (items & h1 & _ & Hrest)%bind_Ok_inv.
    apply bind_Ok_inv in Hrest as (acc & h2 & _ & Hret).
    unfold ret in Hret. by injection Hret as _ _ <- _.
Qed.

(** C1, amended.  For a key that the old generation holds and that
    exactly one bucket [b] of the new generation has, [changed] holds
    exactly one pair for the key: its first component is the old bucket
    for the key, which is unchanged, and its second component holds the
    old bucket's activities followed by the activities of [b]. *)
Theorem merge_appends_new_activities h old new k o b ob bb :
  allocated h old → allocated h new →
  old_for h old k = Some o → h !! o = Some ob →
  filter (λ b', group_of h b' = Some k) new = [b] → h !! b = Some bb →
  ∃ nw ch rm h' m,
    BaseAggregator.merge old new h = Ok ((nw, ch, rm), h') ∧
    filter (λ p, group_of h p.1 = Some k) ch = [(o, m)] ∧
    h' !! o = Some ob ∧
    h' !! m = Some (mkAggregated k (activities ob ++ activities bb)).
Proof.
  intros Hold Hnew Hfor Ho Honce Hb.
  destruct (merge_result h old new Hold Hnew) as (ch & ext & Hmerge & HF).
  pose proof (old_for_Some _ _ _ _ Hfor) as [Ho_old Hgo].
  assert (group_of h b = Some k) as Hgb.
  { assert (b ∈ filter (λ b', group_of h b' = Some k) new) as Hin
      by (rewrite Honce; left).
    by apply list_elem_of_filter in Hin as [? _]. }
  apply (Forall2_filter _ (λ b', group_of h b' = Some k)
           (λ p, group_of h p.1 = Some k)) in HF.
  2:{ intros b' p (Hmatch & _). apply matching_old_Some in Hmatch as (_ & _ & ->).
      done. }
  rewrite list_filter_filter_l, Honce in HF.
  2:{ intros b' Hb'. apply Exists_exists. exists o. by rewrite Hb'. }
  apply Forall2_cons_inv_l in HF as ([o' m] & ch' & Hpair & Hnil & Hch).
  apply Forall2_nil_inv_l in Hnil as ->.
  destruct Hpair as (Hmatch & _ & ob' & bb' & Ho' & Hb' & Hm). simpl in *.
  assert (o' = o) as ->.
  { revert Hmatch. unfold matching_old. rewrite Hgb. simpl. congruence. }
  assert (ob' = ob) as -> by congruence.
  assert (bb' = bb) as -> by congruence.
  exists (filter (λ b, ¬ key_in h old b) new), ch, [], (h ++ ext), m.
  split; [done|]. split; [done|]. split; [by apply lookup_app_l_Some|].
  rewrite Hm. unfold merged_bucket. f_equal. f_equal.
  revert Hgo. unfold group_of. rewrite Ho. simpl. congruence.
Qed.

(** C3, amended.  [new] (the first component of the result) is the list
    of the buckets of the new generation whose key no old bucket has, in
    the order of the new generation; [changed] has, in the same order,
    exactly one pair for each other bucket [b] of the new generation,
    whose second component is not [b] but a new bucket that holds the
    old bucket's activities followed by those of [b].  So each bucket of
    the new generation is accounted for exactly once. *)
Theorem merge_partitions_new h old new :
  allocated h old → allocated h new →
  ∃ nw ch rm h',
    BaseAggregator.merge old new h = Ok ((nw, ch, rm), h') ∧
    nw = filter (λ b, ¬ key_in h old b) new ∧
    Forall2 (merged_pair h h' old) (filter (key_in h old) new) ch ∧
    (length nw + length ch = length new)%nat.
Proof.
  intros Hold Hnew.
  destruct (merge_result h old new Hold Hnew) as (ch & ext & Hmerge & HF).
  exists (filter (λ b, ¬ key_in h old b) new), ch, [], (h ++ ext).
  split; [done|]. split; [done|]. split; [done|].
  rewrite <- (Forall2_length _ _ _ HF). clear.
  induction new as [|b new IH]; [done|].
  rewrite !filter_cons. destruct (decide (key_in h old b)).
  - rewrite decide_False by tauto. simpl. lia.
  - rewrite decide_True by done. simpl. lia.
Qed.
End merge_claims.

(** ** [merge] on concrete stores *)

Example merge_store_ab :
  BaseAggregator.merge [0] [1; 2] store_ab =
    Ok (([2], [(0, 3)], []), store_ab ++ [mkAggregated "a" [A1; A2]]).
Proof. reflexivity. Qed.

Lemma merge_leaves_old_unchanged_witness :
  allocated store_ab [0] ∧ allocated store_ab [1; 2] ∧
  ∃ nw ch rm h',
    BaseAggregator.merge [0] [1; 2] store_ab = Ok ((nw, ch, rm), h') ∧
    (∀ l b, store_ab !! l = Some b → h' !! l = Some b) ∧
    (∀ o m, (o, m) ∈ ch →
       o ∈ [0] ∧ m ≠ o ∧ store_ab !! m = None ∧ is_Some (h' !! m)).
Proof.
  assert (allocated store_ab [0]) as Hold
    by (unfold allocated; repeat constructor; simpl; lia).
  assert (allocated store_ab [1; 2]) as Hnew
    by (unfold allocated; repeat constructor; simpl; lia).
  split; [exact Hold|]. split; [exact Hnew|].
  exact (merge_leaves_old_unchanged store_ab [0] [1; 2] Hold Hnew).
Defined.

(** The old bucket 0 has the key ["a"], which the new generation, bucket 2
    alone, does not have. *)
Lemma merge_removed_always_empty_witness :
  allocated store_ab [0] ∧ allocated store_ab [2] ∧
  is_Ok (BaseAggregator.merge [0] [2] store_ab) ∧
  BaseAggregator.merge [0] [2] store_ab = Ok (([2], [], []), store_ab) ∧
  ([] : list loc) = [].
Proof.
  assert (allocated store_ab [0]) as Hold
    by (unfold allocated; repeat constructor; simpl; lia).
  assert (allocated store_ab [2]) as Hnew
    by (unfold allocated; repeat constructor; simpl; lia).
  destruct (merge_removed_always_empty store_ab [0] [2]) as [Hok Hrm].
  split; [exact Hold|]. split; [exact Hnew|].
  split; [exact (Hok Hold Hnew)|]. split; [reflexivity|].
  exact (Hrm [2] [] [] store_ab eq_refl).
Defined.

Lemma merge_appends_new_activities_witness :
  allocated store_ab [0] ∧ allocated store_ab [1; 2] ∧
  old_for store_ab [0] "a" = Some 0 ∧
  store_ab !! 0 = Some (mkAggregated "a" [A1]) ∧
  filter (λ b', group_of store_ab b' = Some "a") [1; 2] = [1] ∧
  store_ab !! 1 = Some (mkAggregated "a" [A2]) ∧
  ∃ nw ch rm h' m,
    BaseAggregator.merge [0] [1; 2] store_ab = Ok ((nw, ch, rm), h') ∧
    filter (λ p, group_of store_ab p.1 = Some "a") ch = [(0, m)] ∧
    h' !! 0 = Some (mkAggregated "a" [A1]) ∧
    h' !! m = Some (mkAggregated "a" ([A1] ++ [A2])).
Proof.
  assert (allocated store_ab [0]) as Hold
    by (unfold allocated; repeat constructor; simpl; lia).
  assert (allocated store_ab [1; 2]) as Hnew
    by (unfold allocated; repeat constructor; simpl; lia).
  split; [exact Hold|]. split; [exact Hnew|].
  split; [reflexivity|]. split; [reflexivity|].
  split; [reflexivity|]. split; [reflexivity|].
  exact (merge_appends_new_activities store_ab [0] [1; 2] "a" 0 1
           (mkAggregated "a" [A1]) (mkAggregated "a" [A2])
           Hold Hnew eq_refl eq_refl eq_refl eq_refl).
Defined.

Lemma merge_partitions_new_witness :
  allocated store_ab [0] ∧ allocated store_ab [1; 2] ∧
  ∃ nw ch rm h',
    BaseAggregator.merge [0] [1; 2] store_ab = Ok ((nw, ch, rm), h') ∧
    nw = filter (λ b, ¬ key_in store_ab [0] b) [1; 2] ∧
    Forall2 (merged_pair store_ab h' [0]) (filter (key_in store_ab [0]) [1; 2]) ch ∧
    (length nw + length ch = length [1; 2])%nat.
Proof.
  assert (allocated store_ab [0]) as Hold
    by (unfold allocated; repeat constructor; simpl; lia).
  assert (allocated store_ab [1; 2]) as Hnew
    by (unfold allocated; repeat constructor; simpl; lia).
  split; [exact Hold|]. split; [exact Hnew|].
  exact (merge_partitions_new store_ab [0] [1; 2] Hold Hnew).
Defined.

(** C1, as stated, fails: the key ["a"] is in both generations, and
    [changed] has two pairs for it, one for each bucket of the new
    generation with that key. *)
Lemma merge_two_pairs_for_one_key :
  old_for store_aa [0] "a" = Some 0 ∧
  group_of store_aa 1 = Some "a" ∧
  (∃ h', BaseAggregator.merge [0] [1; 2] store_aa =
           Ok (([], [(0, 3); (0, 4)], []), h')) ∧
  ¬ ∃ nw ch rm h' m,
      BaseAggregator.merge [0] [1; 2] store_aa = Ok ((nw, ch, rm), h') ∧
      filter (λ p, group_of store_aa p.1 = Some "a") ch = [(0, m)].
Proof.
  split; [reflexivity|]. split; [reflexivity|].
  split; [eexists; vm_compute; reflexivity|].
  intros (nw & ch & rm & h' & m & Hmerge & Hfilter).
  vm_compute in Hmerge. injection Hmerge as <- <- <- <-.
  vm_compute in Hfilter. discriminate Hfilter.
Qed.

(** C3, as stated, fails: bucket 1 of the new generation has a key of the
    old generation; it is not in [new] and it is not the second component
    of a pair of [changed], which is the new bucket 3, with other
    activities. *)
Lemma merge_new_bucket_not_in_changed :
  (∃ h', BaseAggregator.merge [0] [1] store_ab = Ok (([], [(0, 3)], []), h')) ∧
  ¬ ∃ nw ch rm h',
      BaseAggregator.merge [0] [1] store_ab = Ok ((nw, ch, rm), h') ∧
      ∀ b, b ∈ [1] →
        b ∈ nw ∨ ∃ p, p ∈ ch ∧ (p.2 = b ∨ h' !! p.2 = h' !! b).
Proof.
  split; [eexists; vm_compute; reflexivity|].
  intros (nw & ch & rm & h' & Hmerge & Hall).
  vm_compute in Hmerge. injection Hmerge as <- <- <- <-.
  destruct (Hall 1) as [Hin|(p & Hin & Hp)]; [left| |].
  - by apply elem_of_nil in Hin.
  - apply list_elem_of_singleton in Hin as ->. simpl in Hp.
    destruct Hp as [Hp|Hp]; discriminate Hp.
Qed.

(** ** [group_activities] *)
Section group_facts.
Context {K : Type} `{EqDecision K} (self : Aggregator K).
Implicit Types (h : heap K) (d : dict K loc) (k : K) (a : Activity).

Lemma group_step_new d h a k :
  get_group a = Ok k → dict_get d k = None →
  BaseAggregator.group_activities_step self d a h =
    Ok (d ++ [(k, length h)], h ++ [mkAggregated k [a]]).
Proof.
  intros Hk Hd. unfold BaseAggregator.group_activities_step.
  rewrite Hk. unfold lift at 1, bind at 1.
  rewrite dict_contains_get, Hd. simpl.
  unfold bind at 1. unfold bind at 1. unfold new_AggregatedActivity, ret at 1.
  unfold bind at 1. unfold dict_getitem.
  rewrite dict_get_setitem, decide_True by done. unfold lift.
  erewrite bind_Ok; [|by apply append_Some, list_lookup_middle].
  unfold ret. simpl. rewrite (dict_setitem_fresh _ _ _ Hd).
  rewrite insert_app_r_alt by lia. by rewrite Nat.sub_diag.
Qed.

Lemma group_step_seen d h a k l b :
  get_group a = Ok k → dict_get d k = Some l → h !! l = Some b →
  BaseAggregator.group_activities_step self d a h =
    Ok (d, <[l := mkAggregated (group b) (activities b ++ [a])]> h).
Proof.
  intros Hk Hd Hl. unfold BaseAggregator.group_activities_step.
  rewrite Hk. unfold lift at 1, bind at 1.
  rewrite dict_contains_get, Hd. simpl.
  unfold bind at 1. unfold ret at 1. unfold bind at 1.
  unfold dict_getitem. rewrite Hd. unfold lift.
  by rewrite (bind_Ok _ _ _ _ _ (append_Some _ _ _ a Hl)).
Qed.

Lemma group_step_raise d h a e :
  get_group a = Raise e →
  BaseAggregator.group_activities_step self d a h = Raise e.
Proof.
  intros Hk. unfold BaseAggregator.group_activities_step.
  by rewrite Hk.
Qed.
Lemma with_group_snoc_eq k done a :
  get_group a = Ok k → with_group self k (done ++ [a]) = with_group self k done ++ [a].
Proof.
  intros Hk. unfold with_group. rewrite filter_app. f_equal.
  by rewrite filter_cons_True.
Qed.

Lemma with_group_snoc_ne k k' done a :
  get_group a = Ok k → k' ≠ k → with_group self k' (done ++ [a]) = with_group self k' done.
Proof.
  intros Hk Hne. unfold with_group. rewrite filter_app.
  rewrite (filter_cons_False _ a) by (rewrite Hk; congruence).
  by rewrite app_nil_r.
Qed.

Lemma grouped_init h0 : grouped self h0 [] [] h0.
Proof.
  unfold grouped. split; [constructor|]. split; [constructor|].
  split; [done|]. split; [by intros ? ? ?%elem_of_nil|].
  split; [by intros ? ?%elem_of_nil|]. by intros ? ?%elem_of_nil.
Qed.

Lemma grouped_step h0 done d h a k :
  grouped self h0 done d h → get_group a = Ok k →
  ∃ d' h', BaseAggregator.group_activities_step self d a h = Ok (d', h') ∧
           grouped self h0 (done ++ [a]) d' h'.
Proof.
  intros (Hk1 & Hk2 & Hpre & Hcont & Hdone & Hne) Hk.
  destruct (dict_get d k) as [l|] eqn:Hget.
  - (* the key is in the dictionary *)
    pose proof (dict_get_elem_of _ _ _ Hget) as Hin.
    destruct (Hcont _ _ Hin) as [Hle Hl].
    exists d, (<[l := mkAggregated k (with_group self k done ++ [a])]> h).
    split; [by rewrite (group_step_seen _ _ _ _ _ _ Hk Hget Hl)|].
    split; [done|]. split; [done|]. split; [|split; [|split]].
    + destruct Hpre as [ext ->].
      rewrite insert_app_r_alt by done. by eexists.
    + intros k' l' Hin'. destruct (Hcont _ _ Hin') as [Hle' Hl'].
      split; [done|]. destruct (decide (k' = k)) as [->|Hkk].
      * assert (l' = l) as ->.
        { pose proof (dict_get_NoDup _ _ _ Hk1 Hin'). congruence. }
        rewrite list_lookup_insert_eq by by eapply lookup_lt_Some.
        by rewrite (with_group_snoc_eq _ _ _ Hk).
      * assert (l ≠ l') as Hll.
        { intros ->. apply Hkk. symmetry.
          by eapply (NoDup_snd_inj d). }
        rewrite list_lookup_insert_ne by done.
        by rewrite (with_group_snoc_ne _ _ _ _ Hk Hkk).
    + intros a' [Ha'|Ha']%elem_of_app; [by apply Hdone|].
      apply list_elem_of_singleton in Ha' as ->. exists k. split; [done|].
      by apply (list_elem_of_fmap_2 fst) in Hin.
    + intros k' Hk'. destruct (decide (k' = k)) as [->|Hkk].
      * rewrite (with_group_snoc_eq _ _ _ Hk). by destruct (with_group self k done).
      * rewrite (with_group_snoc_ne _ _ _ _ Hk Hkk). by apply Hne.
  - (* the key is not in the dictionary *)
    pose proof (proj1 (dict_get_None _ _) Hget) as Hnin.
    exists (d ++ [(k, length h)]), (h ++ [mkAggregated k [a]]).
    split; [by rewrite (group_step_new _ _ _ _ Hk Hget)|].
    assert (with_group self k done = []) as Hnone.
    { destruct (with_group self k done) as [|a' acts] eqn:Hw; [done|].
      assert (a' ∈ with_group self k done) as Ha' by (rewrite Hw; left).
      apply list_elem_of_filter in Ha' as [Hka' Ha'].
      destruct (Hdone _ Ha') as (k' & Hk' & Hin'). congruence. }
    split; [|split; [|split; [|split; [|split]]]].
    + rewrite fmap_app. apply NoDup_app. split; [done|].
      split; [|apply NoDup_singleton].
      intros k' Hk' ->%list_elem_of_singleton. done.
    + rewrite fmap_app. apply NoDup_app. split; [done|].
      split; [|apply NoDup_singleton].
      intros l' Hl' ->%list_elem_of_singleton.
      apply list_elem_of_fmap in Hl' as ([k' l'] & Heq & Hin). simpl in Heq.
      subst l'. destruct (Hcont _ _ Hin) as [_ Hl].
      apply lookup_lt_Some in Hl. lia.
    + by apply prefix_app_r.
    + intros k' l' [Hin|Hin]%elem_of_app.
      * destruct (Hcont _ _ Hin) as [Hle Hl]. split; [done|].
        assert (k' ≠ k) as Hkk.
        { intros ->. apply Hnin. by apply (list_elem_of_fmap_2 fst) in Hin. }
        rewrite (with_group_snoc_ne _ _ _ _ Hk Hkk).
        by apply lookup_app_l_Some.
      * apply list_elem_of_singleton in Hin as [= -> ->].
        split; [by apply prefix_length|].
        rewrite (with_group_snoc_eq _ _ _ Hk), Hnone. simpl.
        by apply list_lookup_middle.
    + intros a' [Ha'|Ha']%elem_of_app.
      * destruct (Hdone _ Ha') as (k' & Hk' & Hin'). exists k'.
        split; [done|]. rewrite fmap_app. apply elem_of_app. by left.
      * apply list_elem_of_singleton in Ha' as ->. exists k. split; [done|].
        rewrite fmap_app. apply elem_of_app. right. simpl. left.
    + intros k' Hk'. rewrite fmap_app in Hk'.
      apply elem_of_app in Hk' as [Hk'|Hk'].
      * assert (k' ≠ k) as Hkk by (by intros ->).
        rewrite (with_group_snoc_ne _ _ _ _ Hk Hkk). by apply Hne.
      * apply list_elem_of_singleton in Hk' as ->.
        rewrite (with_group_snoc_eq _ _ _ Hk). by destruct (with_group self k done).
Qed.

Lemma grouped_loop h0 acts : Forall (λ a, is_Ok (get_group a)) acts →
  ∀ done d h, grouped self h0 done d h →
  ∃ d' h', for_each (BaseAggregator.group_activities_step self) acts d h = Ok (d', h') ∧
           grouped self h0 (done ++ acts) d' h'.
Proof.
  induction 1 as [|a acts [k Hk] _ IH]; intros done d h Hg; simpl.
  - exists d, h. by rewrite app_nil_r.
  - destruct (grouped_step _ _ _ _ _ _ Hg Hk) as (d1 & h1 & Hstep & Hg1).
    destruct (IH _ _ _ Hg1) as (d' & h' & Hloop & Hg').
    exists d', h'. rewrite (bind_Ok _ _ _ _ _ Hstep).
    split; [done|]. by rewrite <- app_assoc in Hg'.
Qed.

(** [group_activities] returns when [get_group] does, and the result is
    the grouping of all the activities. *)
Lemma group_activities_grouped h acts :
  Forall (λ a, is_Ok (get_group a)) acts →
  ∃ d h', BaseAggregator.group_activities self acts h = Ok (d, h') ∧
          grouped self h acts d h'.
Proof.
  intros Hacts.
  apply (grouped_loop h acts Hacts [] [] h (grouped_init h)).
Qed.
End group_facts.

Section group_claims.
Context {K : Type} `{EqDecision K} (self : Aggregator K).
Implicit Types (h : heap K) (d : dict K loc) (k : K) (a : Activity).

Lemma bind_assoc {A B C} (m : M K A) (f : A → M K B) (g : B → M K C) h :
  bind (bind m f) g h = bind m (λ x, bind (f x) g) h.
Proof. unfold bind. by destruct (m h) as [[x h']|e]. Qed.

Lemma bind_ext {A B} (m : M K A) (f g : A → M K B) h :
  (∀ x h', f x h' = g x h') → bind m f h = bind m g h.
Proof. intros Hfg. unfold bind. by destruct (m h) as [[x h']|e]. Qed.

Lemma for_each_app {A S} (body : S → A → M K S) l1 l2 acc h :
  for_each body (l1 ++ l2) acc h =
    bind (for_each body l1 acc) (for_each body l2) h.
Proof.
  revert acc h. induction l1 as [|x l1 IH]; intros acc h; simpl; [done|].
  rewrite bind_assoc. apply bind_ext. intros acc' h'. apply IH.
Qed.

(** C5. [group_activities] puts every activity in one bucket of its
    result and in no other, and the dictionary holds that bucket under the
    key [get_group] of the activity.  In each round of the loop, a key
    that the dictionary does not hold gets a new bucket with the activity
    alone, and for a key that it holds the activity is put at the end of
    the bucket of that key. *)
Theorem group_activities_complete h input :
  Forall (λ a, is_Ok (get_group a)) input →
  ∃ d h',
    BaseAggregator.group_activities self input h = Ok (d, h') ∧
    (∀ a, a ∈ input →
       ∃ k l acts,
         get_group a = Ok k ∧ dict_get d k = Some l ∧
         h' !! l = Some (mkAggregated k acts) ∧ a ∈ acts ∧
         ∀ k' l' b', dict_get d k' = Some l' → h' !! l' = Some b' →
                     a ∈ activities b' → k' = k ∧ l' = l) ∧
    (∀ pre a post, input = pre ++ a :: post →
       ∃ d1 h1 d2 h2 k,
         BaseAggregator.group_activities self pre h = Ok (d1, h1) ∧
         BaseAggregator.group_activities self (pre ++ [a]) h = Ok (d2, h2) ∧
         get_group a = Ok k ∧
         match dict_get d1 k with
         | None =>
             h1 !! length h1 = None ∧ d2 = d1 ++ [(k, length h1)] ∧
             h2 = h1 ++ [mkAggregated k [a]]
         | Some l =>
             d2 = d1 ∧
             ∃ acts, h1 !! l = Some (mkAggregated k acts) ∧
                     h2 = <[l := mkAggregated k (acts ++ [a])]> h1
         end).
Proof.
  intros Hacts.
  destruct (group_activities_grouped self h input Hacts)
    as (d & h' & Hrun & Hk1 & Hk2 & Hpre & Hcont & Hdone & Hne).
  exists d, h'. split; [done|]. split.
  - intros a Ha. destruct (Hdone a Ha) as (k & Hk & Hin).
    apply list_elem_of_fmap in Hin as ([k0 l] & Heq & Hin). simpl in Heq. subst k0.
    destruct (Hcont _ _ Hin) as [_ Hl].
    exists k, l, (with_group self k input).
    split; [done|]. split; [by apply dict_get_NoDup|]. split; [done|].
    split; [by apply list_elem_of_filter|].
    intros k' l' b' Hget' Hl' Ha'.
    apply dict_get_elem_of in Hget'.
    destruct (Hcont _ _ Hget') as [_ Hl'2].
    rewrite Hl' in Hl'2. injection Hl'2 as ->. simpl in Ha'.
    apply list_elem_of_filter in Ha' as [Hk' _].
    assert (k' = k) as -> by congruence. split; [done|].
    pose proof (dict_get_NoDup _ _ _ Hk1 Hin).
    pose proof (dict_get_NoDup _ _ _ Hk1 Hget'). congruence.
  - intros pre a post ->. clear Hrun Hk1 Hk2 Hpre Hcont Hdone Hne.
    apply Forall_app in Hacts as [Hpre Hrest].
    apply Forall_cons in Hrest as [[k Hk] _].
    destruct (group_activities_grouped self h pre Hpre)
      as (d1 & h1 & Hrun1 & Hk1 & Hk2 & Hpre1 & Hcont & Hdone & Hne).
    assert (∀ d2 h2,
      BaseAggregator.group_activities_step self d1 a h1 = Ok (d2, h2) →
      BaseAggregator.group_activities self (pre ++ [a]) h = Ok (d2, h2)) as Hsnoc.
    { intros d2 h2 Hstep. unfold BaseAggregator.group_activities in *.
      rewrite for_each_app, (bind_Ok _ _ _ _ _ Hrun1). simpl.
      by rewrite (bind_Ok _ _ _ _ _ Hstep). }
    destruct (dict_get d1 k) as [l|] eqn:Hget.
    + destruct (Hcont _ _ (dict_get_elem_of _ _ _ Hget)) as [_ Hl].
      exists d1, h1, d1,
        (<[l := mkAggregated k (with_group self k pre ++ [a])]> h1), k.
      split; [done|]. split.
      { apply Hsnoc. by rewrite (group_step_seen self _ _ _ _ _ _ Hk Hget Hl). }
      split; [done|]. rewrite Hget. split; [done|]. by eexists.
    + exists d1, h1, (d1 ++ [(k, length h1)]), (h1 ++ [mkAggregated k [a]]), k.
      split; [done|]. split.
      { apply Hsnoc. by rewrite (group_step_new self _ _ _ _ Hk Hget). }
      split; [done|]. rewrite Hget. split; [|done].
      by apply lookup_ge_None_2.
Qed.

(** C6. In every bucket that [group_activities] makes, the activities
    are the input activities with the key of the bucket, in the order of
    the input. *)
Theorem group_activities_keeps_order h input :
  Forall (λ a, is_Ok (get_group a)) input →
  ∃ d h',
    BaseAggregator.group_activities self input h = Ok (d, h') ∧
    ∀ k l, dict_get d k = Some l →
      ∃ b, h' !! l = Some b ∧ group b = k ∧
           activities b = filter (λ a, get_group a = Ok k) input ∧
           activities b `sublist_of` input.
Proof.
  intros Hacts.
  destruct (group_activities_grouped self h input Hacts)
    as (d & h' & Hrun & _ & _ & _ & Hcont & _ & _).
  exists d, h'. split; [done|]. intros k l Hget.
  destruct (Hcont _ _ (dict_get_elem_of _ _ _ Hget)) as [_ Hl].
  eexists. split; [exact Hl|]. simpl. split; [done|]. split; [done|].
  apply sublist_filter.
Qed.
End group_claims.

(** ** Sorting and [rank] *)
Section sorting_facts.
Context {T A : Type} (ltb : T → T → bool).

Lemma insert_by_key_Permutation (x : T * A) l :
  insert_by_key ltb x l ≡ₚ x :: l.
Proof.
  induction l as [|y l IH]; simpl; [done|].
  destruct (ltb y.1 x.1); [|done].
  rewrite IH. apply Permutation_swap.
Qed.

Lemma stable_sort_Permutation (l : list (T * A)) : stable_sort ltb l ≡ₚ l.
Proof.
  induction l as [|x l IH]; simpl; [done|].
  by rewrite insert_by_key_Permutation, IH.
Qed.

Lemma sort_decorated_Permutation reverse (l : list (T * A)) :
  sort_decorated ltb reverse l ≡ₚ l.
Proof.
  unfold sort_decorated. destruct reverse; [|apply stable_sort_Permutation].
  rewrite <- Permutation_rev, stable_sort_Permutation.
  symmetry. apply Permutation_rev.
Qed.

Lemma list_comp_Ok {K B} (f : A → M K B) l keys (h : heap K) :
  Forall2 (λ x key, f x h = Ok (key, h)) l keys →
  list_comp f l h = Ok (keys, h).
Proof.
  induction 1 as [|x key l keys Hx _ IH]; simpl; [done|].
  rewrite (bind_Ok _ _ _ _ _ Hx). by rewrite (bind_Ok _ _ _ _ _ IH).
Qed.

(** A sort whose key function succeeds on every item returns the items
    in another order and leaves the store as it is. *)
Lemma list_sort_Ok {K} (key : A → M K T) reverse l keys (h : heap K) :
  Forall2 (λ x k, key x h = Ok (k, h)) l keys →
  list_sort ltb key reverse l h =
    Ok ((sort_decorated ltb reverse (zip keys l)).*2, h) ∧
  (sort_decorated ltb reverse (zip keys l)).*2 ≡ₚ l.
Proof.
  intros Hkeys. split.
  - unfold list_sort. by rewrite (bind_Ok _ _ _ _ _ (list_comp_Ok _ _ _ _ Hkeys)).
  - rewrite sort_decorated_Permutation.
    rewrite snd_zip; [done|]. by rewrite (Forall2_length _ _ _ Hkeys).
Qed.
(** The result of the sort is in order: no item comes before an item
    with a smaller key.  This needs that [ltb] is a strict order in which
    "not smaller" is transitive, as the order of integers is. *)
Hypothesis ltb_asym : ∀ a b, ltb a b = true → ltb b a = false.
Hypothesis not_ltb_trans :
  ∀ a b c, ltb b a = false → ltb c b = false → ltb c a = false.

Lemma insert_by_key_sorted (x : T * A) l :
  StronglySorted (λ y z, ltb z.1 y.1 = false) l →
  StronglySorted (λ y z, ltb z.1 y.1 = false) (insert_by_key ltb x l).
Proof.
  induction l as [|y l IH]; simpl; intros Hs.
  - by repeat constructor.
  - apply StronglySorted_inv in Hs as [Hs Hy].
    destruct (ltb y.1 x.1) eqn:Hyx.
    + constructor; [by apply IH|].
      rewrite insert_by_key_Permutation. constructor; [|done].
      by apply ltb_asym.
    + constructor; [by constructor|]. constructor; [done|].
      eapply Forall_impl; [exact Hy|]. simpl. intros z Hz.
      by apply (not_ltb_trans _ y.1).
Qed.

Lemma stable_sort_sorted (l : list (T * A)) :
  StronglySorted (λ y z, ltb z.1 y.1 = false) (stable_sort ltb l).
Proof.
  induction l as [|x l IH]; simpl; [constructor|].
  by apply insert_by_key_sorted.
Qed.
End sorting_facts.

Section rank_facts.
Lemma sort_key_Ok (h : heap Z) l b :
  h !! l = Some b → activities b ≠ [] →
  ∃ key, ModulusAggregator.sort_key l h = Ok (key, h) ∧
         py_max (object_id <$> activities b) = Ok key.
Proof.
  intros Hl Hne. unfold ModulusAggregator.sort_key.
  rewrite (bind_Ok _ _ _ _ _ (get_attr_activities_Some _ _ _ Hl)).
  destruct (activities b) as [|a acts]; [done|]. simpl. by eexists.
Qed.

Lemma sort_key_empty (h : heap Z) l b :
  h !! l = Some b → activities b = [] →
  ModulusAggregator.sort_key l h =
    Raise (ValueError "max() arg is an empty sequence").
Proof.
  intros Hl Hnil. unfold ModulusAggregator.sort_key.
  rewrite (bind_Ok _ _ _ _ _ (get_attr_activities_Some _ _ _ Hl)).
  by rewrite Hnil.
Qed.

Lemma modulus_keys (h : heap Z) l :
  Forall (λ a, ∃ b, h !! a = Some b ∧ activities b ≠ []) l →
  ∃ keys, Forall2 (λ a k, ModulusAggregator.sort_key a h = Ok (k, h)) l keys.
Proof.
  induction 1 as [|a l (b & Ha & Hne) _ [keys IH]].
  - exists []. constructor.
  - destruct (sort_key_Ok _ _ _ Ha Hne) as (key & Hkey & _).
    exists (key :: keys). by constructor.
Qed.

Lemma updated_at_keys {K} (h : heap K) l :
  allocated h l →
  ∃ keys, Forall2 (λ a k, get_attr_updated_at a h = Ok (k, h)) l keys.
Proof.
  induction 1 as [|a l Ha _ [keys IH]].
  - exists []. constructor.
  - apply lookup_lt_is_Some_2 in Ha as [b Ha].
    exists (updated_at b :: keys). constructor; [|done].
    unfold get_attr_updated_at.
    by rewrite (bind_Ok _ _ _ _ _ (read_Some _ _ _ Ha)).
Qed.

Lemma modulus_rank_Ok (h : heap Z) l :
  Forall (λ a, ∃ b, h !! a = Some b ∧ activities b ≠ []) l →
  ∃ l', ModulusAggregator.rank l h = Ok (l', h) ∧ l' ≡ₚ l.
Proof.
  intros Hl. destruct (modulus_keys h l Hl) as [keys Hkeys].
  destruct (list_sort_Ok Z.ltb _ false _ _ _ Hkeys) as [Hsort Hperm].
  eexists. split; [exact Hsort|exact Hperm].
Qed.

Lemma recent_verb_rank_Ok (h : heap string) l :
  allocated h l →
  ∃ l', RecentVerbAggregator.rank l h = Ok (l', h) ∧ l' ≡ₚ l.
Proof.
  intros Hl. destruct (updated_at_keys h l Hl) as [keys Hkeys].
  destruct (list_sort_Ok option_ltb _ true _ _ _ Hkeys) as [Hsort Hperm].
  eexists. split; [exact Hsort|exact Hperm].
Qed.

Lemma Forall2_zip_keys {A T} (P : A → T → Prop) l keys :
  Forall2 P l keys → Forall (λ kl, P kl.2 kl.1) (zip keys l).
Proof. induction 1; simpl; by constructor. Qed.

(** [ModulusAggregator.rank] puts the buckets in ascending order of their
    sort keys, the greatest ids of their activities. *)
Lemma modulus_rank_ascending (h : heap Z) l :
  Forall (λ a, ∃ b, h !! a = Some b ∧ activities b ≠ []) l →
  ∃ ranked : list (Z * loc),
    ModulusAggregator.rank l h = Ok (ranked.*2, h) ∧
    Forall (λ kl, ModulusAggregator.sort_key kl.2 h = Ok (kl.1, h)) ranked ∧
    StronglySorted (λ x y, (x.1 ≤ y.1)%Z) ranked.
Proof.
  intros Hl. destruct (modulus_keys h l Hl) as [keys Hkeys].
  exists (stable_sort Z.ltb (zip keys l)). split; [|split].
  - apply (list_sort_Ok Z.ltb _ false _ _ _ Hkeys).
  - rewrite stable_sort_Permutation.
    apply (Forall2_zip_keys _ _ _ Hkeys).
  - assert (StronglySorted (λ y z : Z * loc, (z.1 <? y.1)%Z = false)
              (stable_sort Z.ltb (zip keys l))) as Hs.
    { apply stable_sort_sorted.
      - intros a b. rewrite Z.ltb_lt, Z.ltb_ge. lia.
      - intros a b c. rewrite !Z.ltb_ge. lia. }
    induction Hs as [|x sorted _ IH Hx]; constructor; [done|].
    eapply Forall_impl; [exact Hx|]. simpl. intros y. by rewrite Z.ltb_ge.
Qed.

(** C7, amended.  On a sequence of buckets that each hold an activity,
    [ModulusAggregator.rank] and [RecentVerbAggregator.rank] return the
    sequence in another order: no bucket is added or removed.  Both leave
    the store, hence the group key and the activities of every bucket, as
    they are. *)
Theorem rank_is_permutation :
  (∀ (h : heap Z) l,
     Forall (λ a, ∃ b, h !! a = Some b ∧ activities b ≠ []) l →
     ∃ l', ModulusAggregator.rank l h = Ok (l', h) ∧ l' ≡ₚ l) ∧
  (∀ (h : heap string) l,
     Forall (λ a, ∃ b, h !! a = Some b ∧ activities b ≠ []) l →
     ∃ l', RecentVerbAggregator.rank l h = Ok (l', h) ∧ l' ≡ₚ l).
Proof.
  split; [apply modulus_rank_Ok|].
  intros h l Hl. apply recent_verb_rank_Ok.
  eapply Forall_impl; [exact Hl|]. simpl.
  intros a (b & Ha & _). by eapply lookup_lt_Some.
Qed.

(** C8. The two strategy methods of the base class raise [ValueError]
    with the message [not implemented], for every argument. *)
Theorem base_strategy_not_implemented {K} (activity : Activity)
    (aggregated_activities : list loc) (h : heap K) :
  BaseAggregator.get_group (K := K) activity =
    Raise (ValueError "not implemented") ∧
  BaseAggregator.rank aggregated_activities h =
    Raise (ValueError "not implemented") ∧
  @get_group K BaseAggregator.self activity =
    Raise (ValueError "not implemented") ∧
  @rank K BaseAggregator.self aggregated_activities h =
    Raise (ValueError "not implemented").
Proof. done. Qed.
End rank_facts.

(** X16. Through [aggregate], the base class raises [ValueError] with the
    message [not implemented] for every input: for the first activity in
    [get_group], and without activities in [rank]. *)
Lemma base_aggregate_not_implemented {K} `{EqDecision K}
    (dict_values : dict K loc → list loc) input (h : heap K) :
  BaseAggregator.aggregate dict_values BaseAggregator.self input h =
    Raise (ValueError "not implemented").
Proof.
  unfold BaseAggregator.aggregate, BaseAggregator.group_activities.
  destruct input as [|a input]; simpl; [done|].
  apply bind_Raise, bind_Raise. by apply group_step_raise.
Qed.

(** C7, as stated, fails: [ModulusAggregator.rank] raises on a bucket
    without activities, such as [AggregatedActivity(0)] makes. *)
Lemma modulus_rank_empty_bucket :
  ModulusAggregator.rank [0] [mkAggregated 0%Z []] =
    Raise (ValueError "max() arg is an empty sequence").
Proof. reflexivity. Qed.

Lemma rank_is_permutation_witness :
  Forall (λ a, ∃ b, store_ranked !! a = Some b ∧ activities b ≠ []) [0; 1] ∧
  Forall (λ a, ∃ b, store_ab !! a = Some b ∧ activities b ≠ []) [0; 1; 2] ∧
  (∃ l', ModulusAggregator.rank [0; 1] store_ranked = Ok (l', store_ranked) ∧
         l' ≡ₚ [0; 1]) ∧
  (∃ l', RecentVerbAggregator.rank [0; 1; 2] store_ab = Ok (l', store_ab) ∧
         l' ≡ₚ [0; 1; 2]).
Proof.
  assert (Forall (λ a, ∃ b, store_ranked !! a = Some b ∧ activities b ≠ []) [0; 1])
    as Hmod_ne by (repeat constructor; eexists; (split; [reflexivity|done])).
  assert (Forall (λ a, ∃ b, store_ab !! a = Some b ∧ activities b ≠ []) [0; 1; 2])
    as Hverb_ne by (repeat constructor; eexists; (split; [reflexivity|done])).
  destruct rank_is_permutation as [Hmod Hverb].
  split; [exact Hmod_ne|]. split; [exact Hverb_ne|].
  split; [exact (Hmod store_ranked [0; 1] Hmod_ne)|].
  exact (Hverb store_ab [0; 1; 2] Hverb_ne).
Defined.

(** ** [aggregate] *)
Section aggregate_facts.
Context {K : Type} `{EqDecision K} (self : Aggregator K).
Implicit Types (h : heap K) (d : dict K loc).

Lemma group_loop_Ok_inv acts d h r :
  for_each (BaseAggregator.group_activities_step self) acts d h = Ok r →
  Forall (λ a, is_Ok (get_group a)) acts.
Proof.
  revert d h. induction acts as [|a acts IH]; intros d h; simpl; [constructor|].
  intros (d1 & h1 & Hstep & Hrest)%bind_Ok_inv. constructor.
  - destruct (get_group a) as [k|e] eqn:Hk; [by eexists|].
    by rewrite (group_step_raise self _ _ _ _ Hk) in Hstep.
  - by eapply IH.
Qed.

(** A result of [group_activities] is the grouping of its input. *)
Lemma group_activities_Ok_grouped h input d h' :
  BaseAggregator.group_activities self input h = Ok (d, h') →
  grouped self h input d h'.
Proof.
  intros Hrun. pose proof (group_loop_Ok_inv _ _ _ _ Hrun) as Hacts.
  destruct (group_activities_grouped self h input Hacts) as (d2 & h2 & Hrun2 & Hg).
  rewrite Hrun in Hrun2. by injection Hrun2 as <- <-.
Qed.

Lemma grouped_values_nonempty h input d h' :
  grouped self h input d h' →
  Forall (λ a, ∃ b, h' !! a = Some b ∧ activities b ≠ []) d.*2.
Proof.
  intros (_ & _ & _ & Hcont & _ & Hne). apply Forall_forall. intros l Hl.
  apply list_elem_of_fmap in Hl as ([k l'] & -> & Hin). simpl.
  destruct (Hcont _ _ Hin) as [_ Hl]. eexists. split; [exact Hl|]. simpl.
  apply Hne. by apply (list_elem_of_fmap_2 fst) in Hin.
Qed.
End aggregate_facts.

Lemma modulus_get_group modulus a :
  modulus ≠ 0%Z →
  @get_group Z (ModulusAggregator.self modulus) a = Ok (object_id a `mod` modulus)%Z.
Proof.
  intros Hm. simpl. unfold ModulusAggregator.get_group. by rewrite decide_False.
Qed.

Lemma modulus_aggregate_Ok (dict_values : dict Z loc → list loc) modulus
    (h : heap Z) input :
  (∀ d, dict_values d ≡ₚ d.*2) → modulus ≠ 0%Z →
  ∃ ranked h',
    BaseAggregator.aggregate dict_values (ModulusAggregator.self modulus) input h =
      Ok (ranked, h') ∧
    Forall (λ a, ∃ b, h' !! a = Some b ∧ activities b ≠ []) ranked.
Proof.
  intros Hvalues Hm.
  assert (Forall (λ a, is_Ok (@get_group Z (ModulusAggregator.self modulus) a)) input)
    as Hacts.
  { apply Forall_forall. intros a _. rewrite modulus_get_group by done. by eexists. }
  destruct (group_activities_grouped _ h input Hacts) as (d & h' & Hrun & Hg).
  pose proof (grouped_values_nonempty _ _ _ _ _ Hg) as Hne.
  rewrite <- (Hvalues d) in Hne.
  destruct (modulus_rank_Ok h' _ Hne) as (ranked & Hrank & Hperm).
  exists ranked, h'. split.
  - unfold BaseAggregator.aggregate. rewrite (bind_Ok _ _ _ _ _ Hrun). simpl.
    by rewrite (bind_Ok _ _ _ _ _ Hrank).
  - by rewrite Hperm.
Qed.

(** C10. Every bucket of the dictionary that [group_activities] returns
    holds an activity.  So [max] in the sort key of [ModulusAggregator.rank]
    never gets an empty list in [aggregate]: [aggregate] does not raise the
    [ValueError] of [max], and with a modulus other than zero it returns
    buckets that all hold an activity. *)
Theorem grouped_buckets_nonempty :
  (∀ K (HK : EqDecision K) (self : Aggregator K) (h : heap K) input d h',
     BaseAggregator.group_activities self input h = Ok (d, h') →
     ∀ k l, dict_get d k = Some l →
       ∃ b, h' !! l = Some b ∧ activities b ≠ []) ∧
  (∀ (dict_values : dict Z loc → list loc) modulus (h : heap Z) input,
     (∀ d, dict_values d ≡ₚ d.*2) →
     BaseAggregator.aggregate dict_values (ModulusAggregator.self modulus) input h
       ≠ Raise (ValueError "max() arg is an empty sequence") ∧
     (modulus ≠ 0%Z →
      ∃ ranked h',
        BaseAggregator.aggregate dict_values (ModulusAggregator.self modulus) input h
          = Ok (ranked, h') ∧
        Forall (λ a, ∃ b, h' !! a = Some b ∧ activities b ≠ []) ranked)).
Proof.
  split.
  - intros K HK self h input d h' Hrun k l Hget.
    pose proof (group_activities_Ok_grouped _ _ _ _ _ Hrun) as Hg.
    pose proof (grouped_values_nonempty _ _ _ _ _ Hg) as Hne.
    rewrite Forall_forall in Hne. apply Hne.
    by apply dict_get_elem_of, (list_elem_of_fmap_2 snd) in Hget.
  - intros dict_values modulus h input Hvalues. split.
    + destruct (decide (modulus = 0%Z)) as [->|Hm].
      * destruct input as [|a input].
        -- unfold BaseAggregator.aggregate, BaseAggregator.group_activities. simpl.
           unfold bind at 1. unfold ret at 1.
           assert (dict_values [] = []) as ->.
           { apply Permutation_nil. symmetry. apply (Hvalues []). }
           done.
        -- assert (BaseAggregator.aggregate dict_values (ModulusAggregator.self 0)
                     (a :: input) h =
                   Raise (ZeroDivisionError "integer division or modulo by zero"))
             as ->; [|done].
           unfold BaseAggregator.aggregate, BaseAggregator.group_activities. simpl.
           apply bind_Raise, bind_Raise. by apply group_step_raise.
      * destruct (modulus_aggregate_Ok dict_values modulus h input Hvalues Hm)
          as (ranked & h' & -> & _). done.
    + apply modulus_aggregate_Ok; done.
Qed.

(** ** The modulus scenario: ids 1, 2, 3, 4 and modulus 3 *)
Section modulus_scenario.
Variables (h : heap Z) (a1 a2 a3 a4 : Activity).
Hypothesis id1 : object_id a1 = 1%Z.
Hypothesis id2 : object_id a2 = 2%Z.
Hypothesis id3 : object_id a3 = 3%Z.
Hypothesis id4 : object_id a4 = 4%Z.

Let n := length h.

Lemma scenario_group_activities :
  BaseAggregator.group_activities ModulusAggregator.default [a1; a2; a3; a4] h =
    Ok ([(1%Z, n); (2%Z, S n); (0%Z, S (S n))],
        h ++ [mkAggregated 1%Z [a1; a4]; mkAggregated 2%Z [a2];
              mkAggregated 0%Z [a3]]).
Proof.
  assert (∀ a, @get_group Z ModulusAggregator.default a = Ok (object_id a `mod` 3)%Z)
    as Hgroup by (intros a; by apply modulus_get_group).
  unfold BaseAggregator.group_activities. simpl.
  erewrite bind_Ok;
    [|apply (group_step_new _ _ _ _ 1%Z); [by rewrite Hgroup, id1|done]].
  erewrite bind_Ok;
    [|apply (group_step_new _ _ _ _ 2%Z); [by rewrite Hgroup, id2|done]].
  erewrite bind_Ok;
    [|apply (group_step_new _ _ _ _ 0%Z); [by rewrite Hgroup, id3|done]].
  rewrite <- !app_assoc, !length_app. simpl. fold n.
  replace (n + 1)%nat with (S n) by lia.
  replace (n + 2)%nat with (S (S n)) by lia.
  erewrite bind_Ok; [|apply (group_step_seen _ _ _ _ 1%Z n (mkAggregated 1%Z [a1]))].
  - unfold ret. simpl. rewrite insert_app_r_alt by (unfold n; lia).
    unfold n. by rewrite Nat.sub_diag.
  - by rewrite Hgroup, id4.
  - done.
  - by apply list_lookup_middle.
Qed.

(** Three buckets whose sort keys are 4, 2 and 3, in any order, are
    ranked by ascending key. *)
Lemma rank_three (h' : heap Z) l1 l2 l0 vs :
  ModulusAggregator.sort_key l1 h' = Ok (4%Z, h') →
  ModulusAggregator.sort_key l2 h' = Ok (2%Z, h') →
  ModulusAggregator.sort_key l0 h' = Ok (3%Z, h') →
  vs ≡ₚ [l1; l2; l0] →
  ModulusAggregator.rank vs h' = Ok ([l2; l0; l1], h').
Proof.
  intros H1 H2 H0 Hperm. symmetry in Hperm.
  apply permutations_Permutation in Hperm. simpl in Hperm.
  unfold ModulusAggregator.rank.
  repeat (apply elem_of_cons in Hperm as [->|Hperm]);
    [..|by apply elem_of_nil in Hperm].
  - by rewrite (proj1 (list_sort_Ok Z.ltb _ false _ [4; 2; 3]%Z h'
                  ltac:(repeat constructor; done))).
  - by rewrite (proj1 (list_sort_Ok Z.ltb _ false _ [2; 4; 3]%Z h'
                  ltac:(repeat constructor; done))).
  - by rewrite (proj1 (list_sort_Ok Z.ltb _ false _ [2; 3; 4]%Z h'
                  ltac:(repeat constructor; done))).
  - by rewrite (proj1 (list_sort_Ok Z.ltb _ false _ [4; 3; 2]%Z h'
                  ltac:(repeat constructor; done))).
  - by rewrite (proj1 (list_sort_Ok Z.ltb _ false _ [3; 4; 2]%Z h'
                  ltac:(repeat constructor; done))).
  - by rewrite (proj1 (list_sort_Ok Z.ltb _ false _ [3; 2; 4]%Z h'
                  ltac:(repeat constructor; done))).
Qed.
End modulus_scenario.

(** C9. With the default modulus 3, [aggregate] of four activities with
    the ids 1, 2, 3, 4 makes the buckets 1: [1, 4], 2: [2] and 0: [3], and
    returns them by ascending greatest id: the bucket of group 2, the
    bucket of group 0, the bucket of group 1.  This holds for every order
    in which the dictionary gives its values. *)
Theorem modulus_aggregate_scenario (dict_values : dict Z loc → list loc)
    (h : heap Z) a1 a2 a3 a4 :
  (∀ d, dict_values d ≡ₚ d.*2) →
  object_id a1 = 1%Z → object_id a2 = 2%Z →
  object_id a3 = 3%Z → object_id a4 = 4%Z →
  ∃ d ranked h',
    BaseAggregator.group_activities ModulusAggregator.default [a1; a2; a3; a4] h =
      Ok (d, h') ∧
    BaseAggregator.aggregate dict_values ModulusAggregator.default
      [a1; a2; a3; a4] h = Ok (ranked, h') ∧
    (λ kl, (kl.1, h' !! kl.2)) <$> d =
      [(1%Z, Some (mkAggregated 1%Z [a1; a4]));
       (2%Z, Some (mkAggregated 2%Z [a2]));
       (0%Z, Some (mkAggregated 0%Z [a3]))] ∧
    (h' !!.) <$> ranked =
      [Some (mkAggregated 2%Z [a2]); Some (mkAggregated 0%Z [a3]);
       Some (mkAggregated 1%Z [a1; a4])].
Proof.
  intros Hvalues id1 id2 id3 id4.
  pose proof (scenario_group_activities h a1 a2 a3 a4 id1 id2 id3 id4) as Hgroup.
  set (n := length h) in *.
  set (h' := h ++ [mkAggregated 1%Z [a1; a4]; mkAggregated 2%Z [a2];
                   mkAggregated 0%Z [a3]]) in *.
  assert (h' !! n = Some (mkAggregated 1%Z [a1; a4])) as Hl1
    by by apply list_lookup_middle.
  assert (h' !! S n = Some (mkAggregated 2%Z [a2])) as Hl2.
  { unfold h'. rewrite lookup_app_r by (unfold n; lia).
    by replace (S n - length h)%nat with 1%nat by (unfold n; lia). }
  assert (h' !! S (S n) = Some (mkAggregated 0%Z [a3])) as Hl0.
  { unfold h'. rewrite lookup_app_r by (unfold n; lia).
    by replace (S (S n) - length h)%nat with 2%nat by (unfold n; lia). }
  exists [(1%Z, n); (2%Z, S n); (0%Z, S (S n))], [S n; S (S n); n], h'.
  split; [done|]. split.
  - unfold BaseAggregator.aggregate. rewrite (bind_Ok _ _ _ _ _ Hgroup).
    erewrite bind_Ok; [done|]. simpl.
    apply (rank_three h' n (S n) (S (S n))).
    + unfold ModulusAggregator.sort_key.
      rewrite (bind_Ok _ _ _ _ _ (get_attr_activities_Some _ _ _ Hl1)).
      simpl. by rewrite id1, id4.
    + unfold ModulusAggregator.sort_key.
      rewrite (bind_Ok _ _ _ _ _ (get_attr_activities_Some _ _ _ Hl2)).
      simpl. by rewrite id2.
    + unfold ModulusAggregator.sort_key.
      rewrite (bind_Ok _ _ _ _ _ (get_attr_activities_Some _ _ _ Hl0)).
      simpl. by rewrite id3.
    + apply Hvalues.
  - simpl. by rewrite Hl1, Hl2, Hl0.
Qed.

Lemma modulus_aggregate_scenario_witness :
  (∀ d, insertion_order d ≡ₚ d.*2) ∧
  object_id A1 = 1%Z ∧ object_id A2 = 2%Z ∧
  object_id A3 = 3%Z ∧ object_id A4 = 4%Z ∧
  ∃ d ranked h',
    BaseAggregator.group_activities ModulusAggregator.default [A1; A2; A3; A4] [] =
      Ok (d, h') ∧
    BaseAggregator.aggregate insertion_order ModulusAggregator.default
      [A1; A2; A3; A4] [] = Ok (ranked, h') ∧
    (λ kl, (kl.1, h' !! kl.2)) <$> d =
      [(1%Z, Some (mkAggregated 1%Z [A1; A4]));
       (2%Z, Some (mkAggregated 2%Z [A2]));
       (0%Z, Some (mkAggregated 0%Z [A3]))] ∧
    (h' !!.) <$> ranked =
      [Some (mkAggregated 2%Z [A2]); Some (mkAggregated 0%Z [A3]);
       Some (mkAggregated 1%Z [A1; A4])].
Proof.
  assert (∀ d, insertion_order d ≡ₚ d.*2) as Hvalues by (intros d; reflexivity).
  split; [exact Hvalues|]. do 4 (split; [reflexivity|]).
  exact (modulus_aggregate_scenario insertion_order [] A1 A2 A3 A4
           Hvalues eq_refl eq_refl eq_refl eq_refl).
Defined.

Lemma group_activities_complete_witness :
  Forall (λ a, is_Ok (@get_group Z ModulusAggregator.default a)) [A1; A2; A3; A4] ∧
  ∃ d h',
    BaseAggregator.group_activities ModulusAggregator.default [A1; A2; A3; A4] [] =
      Ok (d, h') ∧
    (∀ a, a ∈ [A1; A2; A3; A4] →
       ∃ k l acts,
         @get_group Z ModulusAggregator.default a = Ok k ∧ dict_get d k = Some l ∧
         h' !! l = Some (mkAggregated k acts) ∧ a ∈ acts ∧
         ∀ k' l' b', dict_get d k' = Some l' → h' !! l' = Some b' →
                     a ∈ activities b' → k' = k ∧ l' = l).
Proof.
  assert (Forall (λ a, is_Ok (@get_group Z ModulusAggregator.default a))
            [A1; A2; A3; A4]) as Hacts
    by (repeat constructor; eexists; reflexivity).
  split; [exact Hacts|].
  destruct (group_activities_complete ModulusAggregator.default [] [A1; A2; A3; A4] Hacts)
    as (d & h' & Hrun & Hall & _).
  exists d, h'. split; [exact Hrun|exact Hall].
Defined.

Lemma group_activities_keeps_order_witness :
  Forall (λ a, is_Ok (@get_group Z ModulusAggregator.default a)) [A1; A2; A3; A4] ∧
  ∃ d h',
    BaseAggregator.group_activities ModulusAggregator.default [A1; A2; A3; A4] [] =
      Ok (d, h') ∧
    ∀ k l, dict_get d k = Some l →
      ∃ b, h' !! l = Some b ∧ group b = k ∧
           activities b =
             filter (λ a, @get_group Z ModulusAggregator.default a = Ok k)
               [A1; A2; A3; A4] ∧
           activities b `sublist_of` [A1; A2; A3; A4].
Proof.
  assert (Forall (λ a, is_Ok (@get_group Z ModulusAggregator.default a))
            [A1; A2; A3; A4]) as Hacts
    by (repeat constructor; eexists; reflexivity).
  split; [exact Hacts|].
  exact (group_activities_keeps_order ModulusAggregator.default [] [A1; A2; A3; A4] Hacts).
Defined.

Lemma grouped_buckets_nonempty_witness :
  (∀ d, insertion_order d ≡ₚ d.*2) ∧ 3%Z ≠ 0%Z ∧
  BaseAggregator.group_activities ModulusAggregator.default [A1; A2; A3; A4] [] =
    Ok ([(1%Z, 0); (2%Z, 1); (0%Z, 2)],
        [mkAggregated 1%Z [A1; A4]; mkAggregated 2%Z [A2]; mkAggregated 0%Z [A3]]) ∧
  (∃ b, [mkAggregated 1%Z [A1; A4]; mkAggregated 2%Z [A2]; mkAggregated 0%Z [A3]]
          !! 2 = Some b ∧ activities b ≠ []) ∧
  ∃ ranked h',
    BaseAggregator.aggregate insertion_order (ModulusAggregator.self 3)
      [A1; A2; A3; A4] [] = Ok (ranked, h') ∧
    Forall (λ a, ∃ b, h' !! a = Some b ∧ activities b ≠ []) ranked.
Proof.
  assert (∀ d, insertion_order d ≡ₚ d.*2) as Hvalues by (intros d; reflexivity).
  assert (3%Z ≠ 0%Z) as Hm by lia.
  destruct grouped_buckets_nonempty as [Hgroup Hagg].
  split; [exact Hvalues|]. split; [exact Hm|]. split; [reflexivity|]. split.
  - exact (Hgroup Z _ ModulusAggregator.default [] [A1; A2; A3; A4] _ _ eq_refl
             0%Z 2 eq_refl).
  - exact (proj2 (Hagg insertion_order 3%Z [] [A1; A2; A3; A4] Hvalues) Hm).
Defined.

(** * Further properties *)

(** ** Order and stability of [list.sort] *)
Lemma rev_reverse {A} (l : list A) : rev l = reverse l.
Proof. unfold reverse. apply rev_alt. Qed.

Lemma filter_rev {A} (P : A → Prop) `{!∀ x, Decision (P x)} (l : list A) :
  filter P (rev l) = rev (filter P l).
Proof. rewrite !rev_reverse. apply filter_reverse. Qed.

Lemma StronglySorted_rev {A} (R : relation A) l :
  StronglySorted R l → StronglySorted (flip R) (rev l).
Proof.
  induction 1 as [|x l _ IH Hx]; simpl; [constructor|].
  apply StronglySorted_app_2; [|done|by repeat constructor].
  intros x1 x2 Hx1 Hx2. apply list_elem_of_singleton in Hx2 as ->. unfold flip.
  rewrite Forall_forall in Hx. apply Hx.
  rewrite rev_reverse in Hx1. by apply elem_of_reverse.
Qed.

Section stable_facts.
Context {T A : Type} `{EqDecision T} (ltb : T → T → bool).
Hypothesis ltb_irrefl : ∀ a, ltb a a = false.

Lemma insert_by_key_filter (x : T * A) l k :
  filter (λ y, y.1 = k) (insert_by_key ltb x l) = filter (λ y, y.1 = k) (x :: l).
Proof.
  induction l as [|y l IH]; simpl; [done|].
  destruct (ltb y.1 x.1) eqn:Hyx; [|done].
  rewrite (filter_cons _ y), IH, !filter_cons.
  destruct (decide (y.1 = k)) as [Hy|Hy]; [|done].
  destruct (decide (x.1 = k)) as [Hx|Hx]; [|done].
  rewrite Hy, Hx, ltb_irrefl in Hyx. done.
Qed.

(** Items with the same key keep their order. *)
Lemma stable_sort_filter (l : list (T * A)) k :
  filter (λ y, y.1 = k) (stable_sort ltb l) = filter (λ y, y.1 = k) l.
Proof.
  induction l as [|x l IH]; simpl; [done|].
  by rewrite insert_by_key_filter, !filter_cons, IH.
Qed.

Lemma sort_decorated_filter (reverse : bool) (l : list (T * A)) k :
  filter (λ y, y.1 = k) (sort_decorated ltb reverse l) = filter (λ y, y.1 = k) l.
Proof.
  unfold sort_decorated. destruct reverse; [|apply stable_sort_filter].
  by rewrite filter_rev, stable_sort_filter, filter_rev, rev_involutive.
Qed.
End stable_facts.

Lemma sort_decorated_sorted {T A} (ltb : T → T → bool) (reverse : bool)
    (l : list (T * A)) :
  (∀ a b, ltb a b = true → ltb b a = false) →
  (∀ a b c, ltb b a = false → ltb c b = false → ltb c a = false) →
  StronglySorted
    (λ y z, if reverse then ltb y.1 z.1 = false else ltb z.1 y.1 = false)
    (sort_decorated ltb reverse l).
Proof.
  intros Hasym Htrans. unfold sort_decorated. destruct reverse.
  - apply (StronglySorted_rev (λ y z : T * A, ltb z.1 y.1 = false)).
    by apply stable_sort_sorted.
  - by apply stable_sort_sorted.
Qed.

(** ** The sort keys and the order of [rank] *)
Lemma fold_left_max_spec ids x :
  fold_left Z.max ids x ∈ x :: ids ∧
  ∀ y, y ∈ x :: ids → (y ≤ fold_left Z.max ids x)%Z.
Proof.
  revert x. induction ids as [|z ids IH]; intros x; simpl.
  - split; [left|]. intros y ->%list_elem_of_singleton. lia.
  - destruct (IH (Z.max x z)) as [Hin Hle]. split.
    + apply elem_of_cons in Hin as [Hin|Hin]; [|by do 2 right].
      rewrite Hin. destruct (Z.max_spec x z) as [[_ ->]|[_ ->]]; [right|]; left.
    + intros y Hy. assert (Z.max x z ≤ fold_left Z.max ids (Z.max x z))%Z
        as Hm by (apply Hle; left).
      apply elem_of_cons in Hy as [->|Hy]; [lia|].
      apply elem_of_cons in Hy as [->|Hy]; [lia|].
      apply Hle. by right.
Qed.

Lemma sort_key_spec (h : heap Z) a b :
  h !! a = Some b →
  (activities b = [] →
     ModulusAggregator.sort_key a h =
       Raise (ValueError "max() arg is an empty sequence")) ∧
  (activities b ≠ [] →
     ∃ m, ModulusAggregator.sort_key a h = Ok (m, h) ∧
          (∃ x, x ∈ activities b ∧ object_id x = m) ∧
          ∀ x, x ∈ activities b → (object_id x ≤ m)%Z).
Proof.
  intros Ha. split; [by apply sort_key_empty|]. intros Hne.
  unfold ModulusAggregator.sort_key.
  rewrite (bind_Ok _ _ _ _ _ (get_attr_activities_Some _ _ _ Ha)).
  destruct (activities b) as [|x acts]; [done|]. simpl.
  destruct (fold_left_max_spec (object_id <$> acts) (object_id x)) as [Hin Hle].
  eexists. split; [done|]. split.
  - change (object_id x :: (object_id <$> acts)) with (object_id <$> x :: acts) in Hin.
    apply list_elem_of_fmap in Hin as (y & Hy & Hin). by exists y.
  - intros y Hy. apply Hle.
    change (object_id x :: (object_id <$> acts)) with (object_id <$> x :: acts).
    by apply list_elem_of_fmap_2.
Qed.

(** X1. The sort key of [ModulusAggregator.rank] for a bucket is the
    greatest [object_id] among the bucket's activities; for a bucket
    without activities it is the [ValueError] of [max]. *)
Theorem sort_key_greatest_id (h : heap Z) a b :
  h !! a = Some b →
  (activities b = [] →
     ModulusAggregator.sort_key a h =
       Raise (ValueError "max() arg is an empty sequence")) ∧
  (activities b ≠ [] →
     ∃ m, ModulusAggregator.sort_key a h = Ok (m, h) ∧
          (∃ x, x ∈ activities b ∧ object_id x = m) ∧
          ∀ x, x ∈ activities b → (object_id x ≤ m)%Z).
Proof. apply sort_key_spec. Qed.

Lemma sort_key_greatest_id_witness :
  store_ranked !! 0 = Some (mkAggregated 1%Z [A1; A3]) ∧
  [A1; A3] ≠ [] ∧
  ∃ m, ModulusAggregator.sort_key 0 store_ranked = Ok (m, store_ranked) ∧
       (∃ x, x ∈ [A1; A3] ∧ object_id x = m) ∧
       ∀ x, x ∈ [A1; A3] → (object_id x ≤ m)%Z.
Proof.
  split; [reflexivity|]. split; [done|].
  exact (proj2 (sort_key_greatest_id store_ranked 0 (mkAggregated 1%Z [A1; A3])
                  eq_refl) ltac:(done)).
Defined.

Lemma list_sort_sorted_stable {K T A} `{EqDecision T} (ltb : T → T → bool)
    (key : A → M K T) (reverse : bool) l keys (h : heap K) :
  (∀ a, ltb a a = false) →
  (∀ a b, ltb a b = true → ltb b a = false) →
  (∀ a b c, ltb b a = false → ltb c b = false → ltb c a = false) →
  Forall2 (λ x k, key x h = Ok (k, h)) l keys →
  ∃ ranked,
    list_sort ltb key reverse l h = Ok (ranked.*2, h) ∧
    ranked ≡ₚ zip keys l ∧
    StronglySorted
      (λ y z, if reverse then ltb y.1 z.1 = false else ltb z.1 y.1 = false)
      ranked ∧
    ∀ k, filter (λ kl, kl.1 = k) ranked = filter (λ kl, kl.1 = k) (zip keys l).
Proof.
  intros Hirrefl Hasym Htrans Hkeys.
  exists (sort_decorated ltb reverse (zip keys l)).
  split; [apply (list_sort_Ok ltb _ reverse _ _ _ Hkeys)|].
  split; [apply sort_decorated_Permutation|].
  split; [by apply sort_decorated_sorted|].
  intros k. by apply sort_decorated_filter.
Qed.

(** X2. [ModulusAggregator.rank] returns the buckets in ascending order of
    their sort keys, and buckets with the same sort key in the order in
    which they come in the input. *)
Theorem modulus_rank_ascending_stable (h : heap Z) l :
  Forall (λ a, ∃ b, h !! a = Some b ∧ activities b ≠ []) l →
  ∃ keys ranked,
    Forall2 (λ a k, ModulusAggregator.sort_key a h = Ok (k, h)) l keys ∧
    ModulusAggregator.rank l h = Ok (ranked.*2, h) ∧
    ranked ≡ₚ zip keys l ∧
    StronglySorted (λ x y, (x.1 ≤ y.1)%Z) ranked ∧
    ∀ k, filter (λ kl, kl.1 = k) ranked = filter (λ kl, kl.1 = k) (zip keys l).
Proof.
  intros Hl. destruct (modulus_keys h l Hl) as [keys Hkeys].
  destruct (list_sort_sorted_stable Z.ltb ModulusAggregator.sort_key false
              l keys h) as (ranked & Hrank & Hperm & Hs & Hstable); [..|done|].
  - intros a. apply Z.ltb_irrefl.
  - intros a b. rewrite Z.ltb_lt, Z.ltb_ge. lia.
  - intros a b c. rewrite !Z.ltb_ge. lia.
  - exists keys, ranked. split; [done|]. split; [done|]. split; [done|].
    split; [|done]. clear -Hs.
    induction Hs as [|x sorted _ IH Hx]; constructor; [done|].
    eapply Forall_impl; [exact Hx|]. simpl. intros y. by rewrite Z.ltb_ge.
Qed.

(** X3. [RecentVerbAggregator.rank] returns the buckets in descending order
    of [updated_at]: no bucket comes before a bucket with a later
    [updated_at].  Buckets with the same [updated_at] come in the order in
    which they come in the input. *)
Theorem recent_verb_rank_descending_stable (h : heap string) l :
  Forall (λ a, ∃ b, h !! a = Some b ∧ activities b ≠ []) l →
  ∃ keys ranked,
    Forall2 (λ a k, get_attr_updated_at a h = Ok (k, h)) l keys ∧
    RecentVerbAggregator.rank l h = Ok (ranked.*2, h) ∧
    ranked ≡ₚ zip keys l ∧
    StronglySorted (λ x y, option_ltb x.1 y.1 = false) ranked ∧
    ∀ k, filter (λ kl, kl.1 = k) ranked = filter (λ kl, kl.1 = k) (zip keys l).
Proof.
  intros Hl.
  assert (allocated h l) as Hall.
  { eapply Forall_impl; [exact Hl|]. simpl.
    intros a (b & Ha & _). by eapply lookup_lt_Some. }
  destruct (updated_at_keys h l Hall) as [keys Hkeys].
  destruct (list_sort_sorted_stable option_ltb get_attr_updated_at true
              l keys h) as (ranked & Hrank & Hperm & Hs & Hstable); [..|done|].
  - intros [a|]; simpl; [apply Z.ltb_irrefl|done].
  - intros [a|] [b|]; simpl; try done. rewrite Z.ltb_lt, Z.ltb_ge. lia.
  - intros [a|] [b|] [c|]; simpl; try done. rewrite !Z.ltb_ge. lia.
  - by exists keys, ranked.
Qed.

Lemma modulus_rank_ascending_stable_witness :
  Forall (λ a, ∃ b, store_ties !! a = Some b ∧ activities b ≠ []) [0; 1; 2] ∧
  ∃ keys ranked,
    Forall2 (λ a k, ModulusAggregator.sort_key a store_ties = Ok (k, store_ties))
      [0; 1; 2] keys ∧
    ModulusAggregator.rank [0; 1; 2] store_ties = Ok (ranked.*2, store_ties) ∧
    ranked ≡ₚ zip keys [0; 1; 2] ∧
    StronglySorted (λ x y, (x.1 ≤ y.1)%Z) ranked ∧
    ∀ k, filter (λ kl, kl.1 = k) ranked = filter (λ kl, kl.1 = k) (zip keys [0; 1; 2]).
Proof.
  assert (Forall (λ a, ∃ b, store_ties !! a = Some b ∧ activities b ≠ []) [0; 1; 2])
    as Hne by (repeat constructor; eexists; (split; [reflexivity|done])).
  split; [exact Hne|].
  exact (modulus_rank_ascending_stable store_ties [0; 1; 2] Hne).
Defined.

Lemma recent_verb_rank_descending_stable_witness :
  Forall (λ a, ∃ b, store_ab !! a = Some b ∧ activities b ≠ []) [0; 1; 2] ∧
  ∃ keys ranked,
    Forall2 (λ a k, get_attr_updated_at a store_ab = Ok (k, store_ab)) [0; 1; 2] keys ∧
    RecentVerbAggregator.rank [0; 1; 2] store_ab = Ok (ranked.*2, store_ab) ∧
    ranked ≡ₚ zip keys [0; 1; 2] ∧
    StronglySorted (λ x y, option_ltb x.1 y.1 = false) ranked ∧
    ∀ k, filter (λ kl, kl.1 = k) ranked = filter (λ kl, kl.1 = k) (zip keys [0; 1; 2]).
Proof.
  assert (Forall (λ a, ∃ b, store_ab !! a = Some b ∧ activities b ≠ []) [0; 1; 2])
    as Hne by (repeat constructor; eexists; (split; [reflexivity|done])).
  split; [exact Hne|].
  exact (recent_verb_rank_descending_stable store_ab [0; 1; 2] Hne).
Defined.

(** ** More on [group_activities] *)
Section group_more.
Context {K : Type} `{EqDecision K} (self : Aggregator K).
Implicit Types (h : heap K) (d : dict K loc) (k : K) (a : Activity).

Lemma group_step_length h0 done d h a d1 h1 :
  grouped self h0 done d h →
  BaseAggregator.group_activities_step self d a h = Ok (d1, h1) →
  (length h + length d1 = length h1 + length d)%nat ∧
  grouped self h0 (done ++ [a]) d1 h1.
Proof.
  intros Hg Hstep.
  destruct (get_group a) as [k|e] eqn:Hk;
    [|by rewrite (group_step_raise self _ _ _ _ Hk) in Hstep].
  destruct (grouped_step self _ _ _ _ _ _ Hg Hk) as (d' & h' & Hstep' & Hg').
  rewrite Hstep in Hstep'. injection Hstep' as <- <-. split; [|done].
  destruct Hg as (_ & _ & _ & Hcont & _ & _).
  destruct (dict_get d k) as [l|] eqn:Hget.
  - destruct (Hcont _ _ (dict_get_elem_of _ _ _ Hget)) as [_ Hl].
    rewrite (group_step_seen self _ _ _ _ _ _ Hk Hget Hl) in Hstep.
    injection Hstep as <- <-. by rewrite length_insert.
  - rewrite (group_step_new self _ _ _ _ Hk Hget) in Hstep.
    injection Hstep as <- <-. rewrite !length_app. simpl. lia.
Qed.

Lemma group_loop_length h0 acts : ∀ done d h d' h',
  grouped self h0 done d h →
  for_each (BaseAggregator.group_activities_step self) acts d h = Ok (d', h') →
  (length h + length d' = length h' + length d)%nat.
Proof.
  induction acts as [|a acts IH]; intros done d h d' h' Hg; simpl.
  - unfold ret. intros [= <- <-]. lia.
  - intros (d1 & h1 & Hstep & Hrest)%bind_Ok_inv.
    destruct (group_step_length _ _ _ _ _ _ _ Hg Hstep) as [Hlen Hg1].
    pose proof (IH _ _ _ _ _ Hg1 Hrest). lia.
Qed.

(** The activities of the buckets of all keys together are the input. *)
Lemma with_group_join (ks : list K) input :
  NoDup ks →
  (∀ a, a ∈ input → ∃ k, get_group a = Ok k ∧ k ∈ ks) →
  mjoin ((λ k, with_group self k input) <$> ks) ≡ₚ input.
Proof.
  intros Hnd. induction input as [|a input IH]; intros Hkeys.
  - apply Permutation_nil_r. apply join_nil_2, Forall_fmap, Forall_forall. done.
  - destruct (Hkeys a) as (ka & Hka & Hin); [left|].
    apply list_elem_of_split in Hin as (ks1 & ks2 & ->).
    apply NoDup_app in Hnd as (Hnd1 & Hnot1 & Hnd2).
    apply NoDup_cons in Hnd2 as [Hnot2 Hnd2].
    assert (∀ k, k ≠ ka →
      with_group self k (a :: input) = with_group self k input) as Hother.
    { intros k Hk. unfold with_group. rewrite filter_cons_False; [done|].
      rewrite Hka. congruence. }
    assert (with_group self ka (a :: input) = a :: with_group self ka input)
      as Hsame by (unfold with_group; by rewrite filter_cons_True).
    transitivity (a :: mjoin ((λ k, with_group self k input) <$> ks1 ++ ka :: ks2));
      [|constructor; apply IH; intros; apply Hkeys; by right].
    rewrite !fmap_app, !fmap_cons, !join_app. simpl. rewrite Hsame.
    rewrite (list_fmap_ext (λ k, with_group self k (a :: input))
               (λ k, with_group self k input) ks1).
    2:{ intros i k Hk. apply Hother. intros ->.
        apply list_elem_of_lookup_2 in Hk. apply (Hnot1 ka Hk). left. }
    rewrite (list_fmap_ext (λ k, with_group self k (a :: input))
               (λ k, with_group self k input) ks2).
    2:{ intros i k Hk. apply Hother. intros ->.
        apply list_elem_of_lookup_2 in Hk. done. }
    simpl. by rewrite <- Permutation_middle.
Qed.
End group_more.

Section group_extras.
Context {K : Type} `{EqDecision K} (self : Aggregator K).
Implicit Types (h : heap K) (d : dict K loc) (k : K) (a : Activity).

Lemma is_Ok_keys input :
  Forall (λ a, is_Ok (get_group a)) input →
  ∃ keys : list K, Forall2 (λ a k, get_group a = Ok k) input keys.
Proof.
  induction 1 as [|a input [k Hk] _ [keys IH]].
  - exists []. constructor.
  - exists (k :: keys). by constructor.
Qed.

Lemma group_activities_buckets h input :
  Forall (λ a, is_Ok (get_group a)) input →
  ∃ d h',
    BaseAggregator.group_activities self input h = Ok (d, h') ∧
    (∀ l b, h !! l = Some b → h' !! l = Some b) ∧
    NoDup d.*1 ∧ NoDup d.*2 ∧
    (∀ k, k ∈ d.*1 ↔ ∃ a, a ∈ input ∧ get_group a = Ok k) ∧
    (∀ l, l ∈ d.*2 ↔ (length h ≤ l < length h')%nat) ∧
    length h' = (length h + length d)%nat ∧
    (length d ≤ length input)%nat.
Proof.
  intros Hacts.
  destruct (group_activities_grouped self h input Hacts) as (d & h' & Hrun & Hg).
  pose proof (group_loop_length self h input [] [] h d h' (grouped_init self h) Hrun)
    as Hlen. simpl in Hlen.
  destruct Hg as (Hk1 & Hk2 & Hpre & Hcont & Hdone & Hne).
  exists d, h'. split; [done|].
  split; [intros l b Hl; by eapply prefix_lookup_Some|].
  split; [done|]. split; [done|].
  assert (∀ l, l ∈ d.*2 → (length h ≤ l < length h')%nat) as Hrange.
  { intros l ([k l'] & -> & Hin)%list_elem_of_fmap. simpl.
    destruct (Hcont _ _ Hin) as [Hle Hl]. apply lookup_lt_Some in Hl. lia. }
  split; [|split; [|split; [lia|]]].
  - intros k. split.
    + intros Hk. specialize (Hne k Hk).
      destruct (with_group self k input) as [|a acts] eqn:Hw; [done|].
      assert (a ∈ with_group self k input) as Ha by (rewrite Hw; left).
      apply list_elem_of_filter in Ha as [Hka Ha]. by exists a.
    + intros (a & Ha & Hka). destruct (Hdone a Ha) as (k' & Hk' & Hin). congruence.
  - intros l. split; [apply Hrange|]. intros Hl.
    assert (d.*2 ≡ₚ seq (length h) (length d)) as ->.
    { apply submseteq_length_Permutation.
      - apply NoDup_submseteq; [done|]. intros l' Hl'. apply elem_of_seq.
        specialize (Hrange l' Hl'). lia.
      - by rewrite length_seq, length_fmap. }
    apply elem_of_seq. lia.
  - destruct (is_Ok_keys input Hacts) as [keys Hkeys].
    rewrite (Forall2_length _ _ _ Hkeys), <- (length_fmap fst d).
    apply submseteq_length, NoDup_submseteq; [done|].
    intros k Hk. pose proof (Hne k Hk) as Hnek.
    destruct (with_group self k input) as [|a acts] eqn:Hw; [done|].
    assert (a ∈ with_group self k input) as Ha by (rewrite Hw; left).
    apply list_elem_of_filter in Ha as [Hka Ha].
    apply list_elem_of_lookup in Ha as [i Hi].
    destruct (Forall2_lookup_l _ _ _ _ _ Hkeys Hi) as (k' & Hk' & Hka').
    apply list_elem_of_lookup_2 in Hk'. congruence.
Qed.

(** X4. [group_activities] changes no bucket that the store held before
    the call and makes exactly one new bucket for each group key of the
    input: the keys of the dictionary are the group keys of the input
    activities, each once, its values are the new buckets, each once, and
    there are no more buckets than activities. *)
Theorem group_activities_one_bucket_per_key h input :
  Forall (λ a, is_Ok (get_group a)) input →
  ∃ d h',
    BaseAggregator.group_activities self input h = Ok (d, h') ∧
    (∀ l b, h !! l = Some b → h' !! l = Some b) ∧
    NoDup d.*1 ∧ NoDup d.*2 ∧
    (∀ k, k ∈ d.*1 ↔ ∃ a, a ∈ input ∧ get_group a = Ok k) ∧
    (∀ l, l ∈ d.*2 ↔ (length h ≤ l < length h')%nat) ∧
    length h' = (length h + length d)%nat ∧
    (length d ≤ length input)%nat.
Proof. apply group_activities_buckets. Qed.
(** X5. [group_activities] neither loses nor repeats an activity: the
    activities of the buckets of the dictionary, taken together, are the
    input activities, each as often as it is in the input. *)
Theorem group_activities_partition h input :
  Forall (λ a, is_Ok (get_group a)) input →
  ∃ d h' buckets,
    BaseAggregator.group_activities self input h = Ok (d, h') ∧
    Forall2 (λ kl b, h' !! kl.2 = Some b ∧ group b = kl.1) d buckets ∧
    mjoin (activities <$> buckets) ≡ₚ input.
Proof.
  intros Hacts.
  destruct (group_activities_grouped self h input Hacts)
    as (d & h' & Hrun & Hk1 & _ & _ & Hcont & Hdone & _).
  exists d, h', ((λ kl, mkAggregated kl.1 (with_group self kl.1 input)) <$> d).
  split; [done|]. split.
  - apply Forall2_fmap_r, Forall_Forall2_diag, Forall_forall.
    intros [k l] Hin. simpl. by destruct (Hcont _ _ Hin) as [_ ->].
  - rewrite <- list_fmap_compose.
    etransitivity; [|exact (with_group_join self d.*1 input Hk1 Hdone)].
    by rewrite <- list_fmap_compose.
Qed.

(** X6. An exception of [get_group] ends [group_activities] and
    [aggregate]: they raise the exception of the first activity for which
    [get_group] raises. *)
Theorem group_activities_raises (dict_values : dict K loc → list loc)
    h pre a post e :
  Forall (λ a, is_Ok (get_group a)) pre →
  get_group a = Raise e →
  BaseAggregator.group_activities self (pre ++ a :: post) h = Raise e ∧
  BaseAggregator.aggregate dict_values self (pre ++ a :: post) h = Raise e.
Proof.
  intros Hpre Ha.
  assert (BaseAggregator.group_activities self (pre ++ a :: post) h = Raise e)
    as Hrun.
  { destruct (group_activities_grouped self h pre Hpre) as (d & h' & Hrun & _).
    unfold BaseAggregator.group_activities in *.
    rewrite for_each_app, (bind_Ok _ _ _ _ _ Hrun). simpl.
    apply bind_Raise. by apply group_step_raise. }
  split; [done|]. unfold BaseAggregator.aggregate. by apply bind_Raise.
Qed.
End group_extras.

(** ** More on [merge] *)
Section merge_more.
Context {K : Type} `{EqDecision K}.
Implicit Types (h : heap K) (d : dict K loc) (old new : list loc) (k : K).

Lemma merge_eq h old new :
  allocated h old → allocated h new →
  BaseAggregator.merge old new h =
    Ok ((filter (λ b, hit h (dict_of_items (old_items h old)) b = None) new,
         zip (omap (hit h (dict_of_items (old_items h old))) new)
             (seq (length h)
                (length (omap (hit h (dict_of_items (old_items h old))) new))),
         []),
        h ++ omap (copy_for h (dict_of_items (old_items h old))) new).
Proof.
  intros Hold Hnew. unfold BaseAggregator.merge.
  rewrite (bind_Ok _ _ _ _ _ (list_comp_items _ _ Hold)).
  pose proof (merge_loop h _ new Hnew (old_dict_allocated _ _ Hold) [] ([], []))
    as Hloop.
  rewrite app_nil_r in Hloop. simpl in Hloop. rewrite Nat.add_0_r in Hloop.
  by rewrite (bind_Ok _ _ _ _ _ Hloop).
Qed.

Lemma length_omap_copy_for h d new :
  allocated h new → dict_allocated h d →
  length (omap (copy_for h d) new) = length (omap (hit h d) new).
Proof.
  intros Hnew Hd. induction Hnew as [|b new Hb _ IH]; [done|].
  rewrite !omap_cons. unfold copy_for at 1.
  apply lookup_lt_is_Some_2 in Hb as [bb Hb].
  destruct (hit h d b) as [o|] eqn:Hhit; simpl; [|done].
  assert (dict_get d (group bb) = Some o) as Hget.
  { revert Hhit. unfold hit. by rewrite Hb. }
  destruct (lookup_lt_is_Some_2 h o (Hd _ _ Hget)) as [ob Ho].
  rewrite Ho, Hb. simpl. by rewrite IH.
Qed.

(** X7. When no bucket of the new generation has the key of a bucket of
    the old generation (so also when one of the generations is empty),
    [merge] returns the new generation as it is, no changed pairs and no
    removed buckets, and makes no bucket. *)
Theorem merge_disjoint_keys h old new :
  allocated h old → allocated h new →
  Forall (λ b, ¬ key_in h old b) new →
  BaseAggregator.merge old new h = Ok ((new, [], []), h).
Proof.
  intros Hold Hnew Hdisj. rewrite (merge_eq _ _ _ Hold Hnew).
  set (d := dict_of_items (old_items h old)).
  assert (Forall (λ b, hit h d b = None) new) as Hnone.
  { unfold allocated in Hnew. rewrite Forall_forall in Hnew, Hdisj.
    apply Forall_forall. intros b Hb. unfold d. rewrite hit_old_items.
    apply matching_old_None; [|by apply Hdisj].
    by apply lookup_lt_is_Some_2, Hnew. }
  clear Hdisj Hnew.
  assert (filter (λ b, hit h d b = None) new = new ∧
          omap (hit h d) new = [] ∧ omap (copy_for h d) new = []) as (-> & -> & ->).
  { induction Hnone as [|b new Hb _ (IH1 & IH2 & IH3)]; [done|].
    rewrite filter_cons_True by done. rewrite !omap_cons.
    unfold copy_for at 1. rewrite Hb. simpl. by rewrite IH1, IH2, IH3. }
  simpl. by rewrite app_nil_r.
Qed.

(** X8. [merge] makes exactly one bucket for each pair of [changed], and
    none else: the second components of the pairs are, in order, the
    locations after those of the store of the call, so no two pairs share
    their second component, also when they share the first.  There is one
    pair for each bucket of the new generation that has the key of an old
    bucket. *)
Theorem merge_allocates_one_copy_per_pair h old new :
  allocated h old → allocated h new →
  ∃ nw ch h',
    BaseAggregator.merge old new h = Ok ((nw, ch, []), h') ∧
    ch.*2 = seq (length h) (length ch) ∧
    length h' = (length h + length ch)%nat ∧
    length ch = length (filter (key_in h old) new).
Proof.
  intros Hold Hnew.
  destruct (merge_result h old new Hold Hnew) as (ch0 & ext0 & Hmerge0 & HF).
  pose proof (merge_eq _ _ _ Hold Hnew) as Hmerge.
  set (d := dict_of_items (old_items h old)) in *.
  rewrite Hmerge in Hmerge0. injection Hmerge0 as _ Hch _.
  eexists _, _, _. split; [exact Hmerge|].
  pose proof (length_seq (length h) (length (omap (hit h d) new))) as Hseq.
  assert (length (zip (omap (hit h d) new)
                    (seq (length h) (length (omap (hit h d) new)))) =
          length (omap (hit h d) new)) as Hlen.
  { rewrite length_zip_with, length_seq. apply Nat.min_id. }
  split; [|split].
  - rewrite Hlen. apply snd_zip. by rewrite length_seq.
  - rewrite length_app, Hlen.
    by rewrite (length_omap_copy_for h d new Hnew (old_dict_allocated _ _ Hold)).
  - rewrite Hch. symmetry. by eapply Forall2_length.
Qed.

(** X9. A bucket of the old generation whose key no bucket of the new
    generation has is in no part of the result of [merge]: it is not in
    [new], it is in no pair of [changed], and the third component is
    empty. *)
Theorem merge_drops_old_only_buckets h old new o :
  allocated h old → allocated h new →
  o ∈ old → Forall (λ b, group_of h b ≠ group_of h o) new →
  ∃ nw ch h',
    BaseAggregator.merge old new h = Ok ((nw, ch, []), h') ∧
    (o ∉ nw) ∧ (∀ p, p ∈ ch → p.1 ≠ o ∧ p.2 ≠ o).
Proof.
  intros Hold Hnew Ho Hkeys.
  destruct (merge_result h old new Hold Hnew) as (ch & ext & Hmerge & HF).
  eexists _, ch, _. split; [exact Hmerge|].
  rewrite Forall_forall in Hkeys. split.
  - intros [_ Hin]%list_elem_of_filter. by apply (Hkeys o Hin).
  - intros [o' m] Hin.
    destruct (merge_result_pair _ _ _ _ _ _ _ HF Hin)
      as (b & Hb & _ & Hmatch & Hle & _). simpl in *. split.
    + intros ->. apply matching_old_Some in Hmatch as (_ & _ & Heq).
      by apply (Hkeys b Hb).
    + unfold allocated in Hold. rewrite Forall_forall in Hold.
      specialize (Hold o Ho). lia.
Qed.
End merge_more.

(** ** [ModulusAggregator]: grouping by residue *)
Lemma modulus_all_Ok modulus input :
  modulus ≠ 0%Z →
  Forall (λ a, is_Ok (@get_group Z (ModulusAggregator.self modulus) a)) input.
Proof.
  intros Hm. apply Forall_forall. intros a _.
  rewrite modulus_get_group by done. by eexists.
Qed.

Lemma modulus_aggregate_grouped (dict_values : dict Z loc → list loc) modulus
    (h : heap Z) input :
  (∀ d, dict_values d ≡ₚ d.*2) → modulus ≠ 0%Z →
  ∃ d ranked h',
    BaseAggregator.group_activities (ModulusAggregator.self modulus) input h =
      Ok (d, h') ∧
    BaseAggregator.aggregate dict_values (ModulusAggregator.self modulus) input h =
      Ok (ranked, h') ∧
    ModulusAggregator.rank (dict_values d) h' = Ok (ranked, h') ∧
    ranked ≡ₚ d.*2 ∧
    grouped (ModulusAggregator.self modulus) h input d h'.
Proof.
  intros Hvalues Hm.
  destruct (group_activities_grouped _ h input (modulus_all_Ok _ input Hm))
    as (d & h' & Hrun & Hg).
  pose proof (grouped_values_nonempty _ _ _ _ _ Hg) as Hne.
  rewrite <- (Hvalues d) in Hne.
  destruct (modulus_rank_Ok h' _ Hne) as (ranked & Hrank & Hperm).
  exists d, ranked, h'. split; [done|]. split; [|split; [done|split; [|done]]].
  - unfold BaseAggregator.aggregate. rewrite (bind_Ok _ _ _ _ _ Hrun). simpl.
    by rewrite (bind_Ok _ _ _ _ _ Hrank).
  - by rewrite Hperm.
Qed.

Lemma modulus_key_range modulus x :
  modulus ≠ 0%Z →
  (x `mod` modulus)%Z ∈
    seqZ (if decide (0 < modulus)%Z then 0 else modulus + 1)%Z (Z.abs modulus).
Proof.
  intros Hm. apply elem_of_seqZ. destruct (decide (0 < modulus)%Z).
  - pose proof (Z.mod_pos_bound x modulus). lia.
  - pose proof (Z.mod_neg_bound x modulus). lia.
Qed.

(** X10. With a modulus [m] other than zero, [aggregate] of
    [ModulusAggregator] returns at most [|m|] buckets, and no more buckets
    than activities; the group key of each bucket is a residue: from 0 to
    [m - 1] for a positive [m], from [m + 1] to 0 for a negative one. *)
Theorem modulus_aggregate_bucket_bound (dict_values : dict Z loc → list loc)
    modulus (h : heap Z) input :
  (∀ d, dict_values d ≡ₚ d.*2) → modulus ≠ 0%Z →
  ∃ ranked h',
    BaseAggregator.aggregate dict_values (ModulusAggregator.self modulus) input h =
      Ok (ranked, h') ∧
    (length ranked ≤ Z.to_nat (Z.abs modulus))%nat ∧
    (length ranked ≤ length input)%nat ∧
    Forall (λ l, ∃ b, h' !! l = Some b ∧
              if decide (0 < modulus)%Z
              then (0 ≤ group b < modulus)%Z
              else (modulus < group b ≤ 0)%Z) ranked.
Proof.
  intros Hvalues Hm.
  destruct (modulus_aggregate_grouped dict_values modulus h input Hvalues Hm)
    as (d & ranked & h' & Hrun & Hagg & _ & Hperm & Hg).
  destruct (group_activities_buckets _ h input (modulus_all_Ok _ input Hm))
    as (d2 & h2 & Hrun2 & _ & Hk1 & _ & Hkeys & _ & _ & Hlen).
  rewrite Hrun in Hrun2. injection Hrun2 as <- <-.
  assert (∀ k, k ∈ d.*1 →
    k ∈ seqZ (if decide (0 < modulus)%Z then 0 else modulus + 1)%Z (Z.abs modulus))
    as Hrange.
  { intros k (a & _ & Ha)%Hkeys. rewrite modulus_get_group in Ha by done.
    injection Ha as <-. by apply modulus_key_range. }
  exists ranked, h'. split; [done|].
  rewrite Hperm, length_fmap. split; [|split; [done|]].
  - rewrite <- (length_seqZ (if decide (0 < modulus)%Z then 0 else modulus + 1)%Z),
      <- (length_fmap fst d).
    by apply submseteq_length, NoDup_submseteq.
  - destruct Hg as (_ & _ & _ & Hcont & _ & _).
    apply Forall_forall. intros l ([k l'] & -> & Hin)%list_elem_of_fmap. simpl.
    destruct (Hcont _ _ Hin) as [_ Hl]. eexists. split; [exact Hl|]. simpl.
    assert (k ∈ d.*1) as Hk by by apply (list_elem_of_fmap_2 fst) in Hin.
    apply Hrange, elem_of_seqZ in Hk. destruct (decide (0 < modulus)%Z); lia.
Qed.

Lemma mod_eq_divide a b m :
  m ≠ 0%Z → (a `mod` m = b `mod` m)%Z ↔ (m | a - b)%Z.
Proof.
  intros Hm. rewrite <- Z.mod_divide by done. split.
  - intros Heq. by rewrite Zminus_mod, Heq, Z.sub_diag, Zmod_0_l.
  - intros Hsub. replace a with (b + (a - b))%Z by lia.
    by rewrite <- Zplus_mod_idemp_r, Hsub, Z.add_0_r.
Qed.

(** X11. With a modulus [m] other than zero, [group_activities] of
    [ModulusAggregator] puts two activities of the input in the same bucket
    exactly when [m] divides the difference of their ids. *)
Theorem modulus_same_bucket_iff_congruent modulus (h : heap Z) input :
  modulus ≠ 0%Z →
  ∃ d h',
    BaseAggregator.group_activities (ModulusAggregator.self modulus) input h =
      Ok (d, h') ∧
    ∀ a1 a2, a1 ∈ input → a2 ∈ input →
      (∃ k l b, dict_get d k = Some l ∧ h' !! l = Some b ∧
                a1 ∈ activities b ∧ a2 ∈ activities b) ↔
      (modulus | object_id a1 - object_id a2)%Z.
Proof.
  intros Hm.
  destruct (group_activities_grouped _ h input (modulus_all_Ok _ input Hm))
    as (d & h' & Hrun & Hk1 & _ & _ & Hcont & Hdone & _).
  exists d, h'. split; [done|]. intros a1 a2 Ha1 Ha2.
  rewrite <- mod_eq_divide by done. split.
  - intros (k & l & b & Hget & Hl & Hb1 & Hb2).
    destruct (Hcont _ _ (dict_get_elem_of _ _ _ Hget)) as [_ Hl'].
    rewrite Hl in Hl'. injection Hl' as ->. simpl in *.
    apply list_elem_of_filter in Hb1 as [Hb1 _], Hb2 as [Hb2 _].
    rewrite modulus_get_group in Hb1, Hb2 by done. congruence.
  - intros Heq. destruct (Hdone a1 Ha1) as (k & Hk & Hin).
    apply list_elem_of_fmap in Hin as ([k' l] & Heqk & Hin). simpl in Heqk. subst k'.
    destruct (Hcont _ _ Hin) as [_ Hl].
    exists k, l, (mkAggregated k (with_group (ModulusAggregator.self modulus) k input)).
    split; [by apply dict_get_NoDup|]. split; [done|]. simpl.
    split; apply list_elem_of_filter; (split; [|done]); [done|].
    rewrite modulus_get_group in Hk |- * by done. congruence.
Qed.

(** ** [aggregate] of [ModulusAggregator] and the order of [dict.values()] *)
Lemma zip_keys_fmap {K} (h : heap K) {T A} (key : A → M K T) (g : A → T) l keys :
  (∀ a k, key a h = Ok (k, h) → g a = k) →
  Forall2 (λ a k, key a h = Ok (k, h)) l keys →
  zip keys l = (λ a, (g a, a)) <$> l.
Proof.
  intros Hg. induction 1 as [|a k l keys Hk _ IH]; simpl; [done|].
  by rewrite IH, (Hg _ _ Hk).
Qed.

(** Two orders of the same buckets are ranked alike when no two of the
    buckets have the same sort key. *)
Lemma modulus_rank_Permutation (h : heap Z) l1 l2 :
  l1 ≡ₚ l2 →
  Forall (λ a, ∃ b, h !! a = Some b ∧ activities b ≠ []) l1 →
  (∀ a a' k, a ∈ l1 → a' ∈ l1 →
     ModulusAggregator.sort_key a h = Ok (k, h) →
     ModulusAggregator.sort_key a' h = Ok (k, h) → a = a') →
  ModulusAggregator.rank l1 h = ModulusAggregator.rank l2 h.
Proof.
  intros Hperm Hne1 Hinj.
  assert (Forall (λ a, ∃ b, h !! a = Some b ∧ activities b ≠ []) l2) as Hne2
    by by rewrite <- Hperm.
  destruct (modulus_keys h l1 Hne1) as [keys1 Hkeys1].
  destruct (modulus_keys h l2 Hne2) as [keys2 Hkeys2].
  set (g := λ a, match ModulusAggregator.sort_key a h with
                 | Ok (k, _) => k | Raise _ => 0%Z end).
  assert (∀ a k, ModulusAggregator.sort_key a h = Ok (k, h) → g a = k) as Hg
    by (intros a k Hk; unfold g; by rewrite Hk).
  assert (∀ a, a ∈ l1 → ModulusAggregator.sort_key a h = Ok (g a, h)) as Hkey.
  { intros a Ha. rewrite Forall_forall in Hne1.
    destruct (Hne1 a Ha) as (b & Hb & Hnb).
    destruct (sort_key_Ok _ _ _ Hb Hnb) as (k & Hk & _).
    by rewrite (Hg _ _ Hk). }
  unfold ModulusAggregator.rank.
  rewrite (proj1 (list_sort_Ok Z.ltb _ false _ _ _ Hkeys1)).
  rewrite (proj1 (list_sort_Ok Z.ltb _ false _ _ _ Hkeys2)).
  do 3 f_equal. unfold sort_decorated.
  rewrite (zip_keys_fmap h _ g _ _ Hg Hkeys1), (zip_keys_fmap h _ g _ _ Hg Hkeys2).
  apply (StronglySorted_unique_strong (λ y z : Z * loc, (z.1 <? y.1)%Z = false)).
  - intros [k1 a1] [k2 a2] Hin1 Hin2. simpl.
    rewrite stable_sort_Permutation in Hin1, Hin2.
    apply list_elem_of_fmap in Hin1 as (a & [= -> ->] & Ha1).
    apply list_elem_of_fmap in Hin2 as (a' & [= -> ->] & Ha2).
    rewrite <- Hperm in Ha2. rewrite !Z.ltb_ge. intros Hle1 Hle2.
    assert (g a = g a') as Heq by lia.
    assert (a = a') as ->; [|done].
    apply (Hinj a a' (g a)); [done|done|by apply Hkey|].
    rewrite Heq. by apply Hkey.
  - apply stable_sort_sorted.
    + intros a b. rewrite Z.ltb_lt, Z.ltb_ge. lia.
    + intros a b c. rewrite !Z.ltb_ge. lia.
  - apply stable_sort_sorted.
    + intros a b. rewrite Z.ltb_lt, Z.ltb_ge. lia.
    + intros a b c. rewrite !Z.ltb_ge. lia.
  - rewrite !stable_sort_Permutation. by rewrite Hperm.
Qed.

(** In the result of [group_activities] of [ModulusAggregator], buckets of
    different keys have different sort keys: the greatest id of a bucket
    has the bucket's key as its residue. *)
Lemma modulus_grouped_keys_inj modulus (h h' : heap Z) input d :
  modulus ≠ 0%Z →
  grouped (ModulusAggregator.self modulus) h input d h' →
  ∀ a a' k, a ∈ d.*2 → a' ∈ d.*2 →
    ModulusAggregator.sort_key a h' = Ok (k, h') →
    ModulusAggregator.sort_key a' h' = Ok (k, h') → a = a'.
Proof.
  intros Hm (Hk1 & _ & _ & Hcont & _ & Hne) a a' k Ha Ha' Hk Hk'.
  assert (∀ l, l ∈ d.*2 → ModulusAggregator.sort_key l h' = Ok (k, h') →
            dict_get d (k `mod` modulus)%Z = Some l) as Hres.
  { intros l ([kl l'] & -> & Hin)%list_elem_of_fmap Hkey. simpl in *.
    destruct (Hcont _ _ Hin) as [_ Hl].
    assert (kl ∈ d.*1) as Hkl by by apply (list_elem_of_fmap_2 fst) in Hin.
    destruct (proj2 (sort_key_spec _ _ _ Hl) (Hne _ Hkl))
      as (m & Hm' & (x & Hx & Hxm) & _).
    rewrite Hkey in Hm'. injection Hm' as <-. simpl in Hx.
    apply list_elem_of_filter in Hx as [Hx _].
    rewrite modulus_get_group in Hx by done. injection Hx as Hx.
    rewrite <- Hxm, Hx. by apply dict_get_NoDup. }
  pose proof (Hres a Ha Hk). pose proof (Hres a' Ha' Hk'). congruence.
Qed.

(** X12. The result of [aggregate] of [ModulusAggregator] is the same for
    every order in which the dictionary gives its values: no two buckets
    have the same sort key, so the ranking is decided by the keys alone. *)
Theorem modulus_aggregate_order_independent
    (dict_values1 dict_values2 : dict Z loc → list loc) modulus
    (h : heap Z) input :
  (∀ d, dict_values1 d ≡ₚ d.*2) → (∀ d, dict_values2 d ≡ₚ d.*2) →
  BaseAggregator.aggregate dict_values1 (ModulusAggregator.self modulus) input h =
  BaseAggregator.aggregate dict_values2 (ModulusAggregator.self modulus) input h.
Proof.
  intros Hv1 Hv2. destruct (decide (modulus = 0%Z)) as [->|Hm].
  - unfold BaseAggregator.aggregate, BaseAggregator.group_activities.
    destruct input as [|a input]; simpl.
    + assert (dict_values1 [] = []) as H1
        by (apply Permutation_nil; symmetry; apply (Hv1 [])).
      assert (dict_values2 [] = []) as H2
        by (apply Permutation_nil; symmetry; apply (Hv2 [])).
      unfold bind, ret. by rewrite H1, H2.
    + erewrite !bind_Raise; [done| |];
        apply bind_Raise; by apply (group_step_raise (ModulusAggregator.self 0)).
  - destruct (modulus_aggregate_grouped dict_values1 modulus h input Hv1 Hm)
      as (d & ranked1 & h' & Hrun & Hagg1 & Hrank1 & Hperm1 & Hg).
    destruct (modulus_aggregate_grouped dict_values2 modulus h input Hv2 Hm)
      as (d2 & ranked2 & h2 & Hrun2 & Hagg2 & Hrank2 & _ & _).
    rewrite Hrun in Hrun2. injection Hrun2 as <- <-.
    rewrite Hagg1, Hagg2, <- Hrank1, <- Hrank2.
    apply modulus_rank_Permutation.
    + by rewrite Hv1, Hv2.
    + rewrite Hv1. by eapply grouped_values_nonempty.
    + intros a a' k Ha Ha'. rewrite Hv1 in Ha, Ha'.
      by apply (modulus_grouped_keys_inj modulus h h' input d Hm Hg).
Qed.

(** ** [merge] of the results of two [aggregate] calls *)
Lemma filter_singleton {A} (P : A → Prop) `{!∀ x, Decision (P x)} (l : list A) x :
  NoDup l → x ∈ l → P x → (∀ y, y ∈ l → P y → y = x) → filter P l = [x].
Proof.
  intros Hnd Hx HP Huniq.
  apply list_elem_of_split in Hx as (l1 & l2 & ->).
  apply NoDup_app in Hnd as (_ & Hnot1 & Hnd2).
  apply NoDup_cons in Hnd2 as [Hnot2 _].
  rewrite filter_app, filter_cons_True by done.
  assert (∀ l', (∀ y, y ∈ l' → y ∈ l1 ++ x :: l2 ∧ y ≠ x) → filter P l' = [])
    as Hnil.
  { induction l' as [|y l' IH]; intros Hl'; [done|].
    rewrite filter_cons_False, IH; [done|..].
    - intros z Hz. apply Hl'. by right.
    - intros HPy. destruct (Hl' y) as [Hy Hne]; [left|].
      by apply Hne, Huniq. }
  rewrite (Hnil l1), (Hnil l2); [done|..].
  - intros y Hy. split; [apply elem_of_app; right; by right|]. by intros ->.
  - intros y Hy. split; [apply elem_of_app; by left|].
    intros ->. apply (Hnot1 x Hy). left.
Qed.

Section merge_grouped.
Context {K : Type} `{EqDecision K} (self : Aggregator K).
Implicit Types (h : heap K) (d : dict K loc) (old new : list loc) (k : K).

(** In a list of the buckets of a grouping, the buckets with a given key
    are the one bucket that the dictionary holds for the key. *)
Lemma grouped_filter_key h0 acts d h h2 ls k l :
  grouped self h0 acts d h → h `prefix_of` h2 → ls ≡ₚ d.*2 →
  (k, l) ∈ d →
  filter (λ a, group_of h2 a = Some k) ls = [l].
Proof.
  intros (Hk1 & Hk2 & _ & Hcont & _ & _) Hpre Hperm Hin.
  assert (∀ k' l', (k', l') ∈ d → group_of h2 l' = Some k') as Hgroup.
  { intros k' l' Hin'. destruct (Hcont _ _ Hin') as [_ Hl'].
    unfold group_of. by rewrite (prefix_lookup_Some _ _ _ _ Hl' Hpre). }
  apply filter_singleton.
  - by rewrite Hperm.
  - rewrite Hperm. by apply (list_elem_of_fmap_2 snd) in Hin.
  - by apply Hgroup.
  - intros l' Hl' Hgl'. rewrite Hperm in Hl'.
    apply list_elem_of_fmap in Hl' as ([k' l''] & -> & Hin'). simpl in *.
    rewrite (Hgroup _ _ Hin') in Hgl'. injection Hgl' as ->.
    pose proof (dict_get_NoDup _ _ _ Hk1 Hin).
    pose proof (dict_get_NoDup _ _ _ Hk1 Hin'). congruence.
Qed.

Lemma grouped_key_iff h0 acts d h k :
  grouped self h0 acts d h → k ∈ d.*1 ↔ with_group self k acts ≠ [].
Proof.
  intros (_ & _ & _ & _ & Hdone & Hne). split; [apply Hne|].
  intros Hw. destruct (with_group self k acts) as [|a l] eqn:Heq; [done|].
  assert (a ∈ with_group self k acts) as Ha by (rewrite Heq; left).
  apply list_elem_of_filter in Ha as [Hka Ha].
  destruct (Hdone a Ha) as (k' & Hk' & Hin). congruence.
Qed.

Lemma merge_pair_for_key h old new k o b ob bb :
  allocated h old → allocated h new →
  old_for h old k = Some o → h !! o = Some ob →
  filter (λ b', group_of h b' = Some k) new = [b] → h !! b = Some bb →
  ∀ nw ch rm h',
    BaseAggregator.merge old new h = Ok ((nw, ch, rm), h') →
    ∃ m, filter (λ p, group_of h p.1 = Some k) ch = [(o, m)] ∧
         h' !! o = Some ob ∧
         h' !! m = Some (mkAggregated k (activities ob ++ activities bb)).
Proof.
  intros Hold Hnew Hfor Ho Honce Hb nw ch rm h' Hmerge'.
  destruct (merge_result h old new Hold Hnew) as (ch0 & ext & Hmerge & HF).
  rewrite Hmerge in Hmerge'. injection Hmerge' as <- <- <- <-.
  pose proof (old_for_Some _ _ _ _ Hfor) as [Ho_old Hgo].
  assert (group_of h b = Some k) as Hgb.
  { assert (b ∈ filter (λ b', group_of h b' = Some k) new) as Hin
      by (rewrite Honce; left).
    by apply list_elem_of_filter in Hin as [? _]. }
  apply (Forall2_filter _ (λ b', group_of h b' = Some k)
           (λ p, group_of h p.1 = Some k)) in HF.
  2:{ intros b' p (Hmatch & _). apply matching_old_Some in Hmatch as (_ & _ & ->).
      done. }
  rewrite list_filter_filter_l, Honce in HF.
  2:{ intros b' Hb'. apply Exists_exists. exists o. by rewrite Hb'. }
  apply Forall2_cons_inv_l in HF as ([o' m] & ch' & Hpair & Hnil & Hch).
  apply Forall2_nil_inv_l in Hnil as ->.
  destruct Hpair as (Hmatch & _ & ob' & bb' & Ho' & Hb' & Hm). simpl in *.
  assert (o' = o) as ->.
  { revert Hmatch. unfold matching_old. rewrite Hgb. simpl. congruence. }
  assert (ob' = ob) as -> by congruence.
  assert (bb' = bb) as -> by congruence.
  exists m. split; [done|]. split; [by apply lookup_app_l_Some|].
  rewrite Hm. unfold merged_bucket. f_equal. f_equal.
  revert Hgo. unfold group_of. rewrite Ho. simpl. congruence.
Qed.

(** [merge] of two groupings, the second made after the first. *)
Lemma merge_of_grouped h h1 h2 acts1 acts2 d1 d2 old new :
  grouped self h acts1 d1 h1 → grouped self h1 acts2 d2 h2 →
  old ≡ₚ d1.*2 → new ≡ₚ d2.*2 →
  ∃ nw ch h3,
    BaseAggregator.merge old new h2 = Ok ((nw, ch, []), h3) ∧
    (∀ k, with_group self k acts1 ≠ [] → with_group self k acts2 ≠ [] →
       ∃ o m, filter (λ p, group_of h2 p.1 = Some k) ch = [(o, m)] ∧
              h3 !! o = Some (mkAggregated k (with_group self k acts1)) ∧
              h3 !! m = Some (mkAggregated k (with_group self k (acts1 ++ acts2)))) ∧
    (∀ b, b ∈ nw ↔
          b ∈ new ∧ ∃ k, group_of h2 b = Some k ∧ with_group self k acts1 = []).
Proof.
  intros Hg1 Hg2 Hold Hnew.
  pose proof Hg1 as (Hk11 & Hk12 & _ & Hcont1 & _ & _).
  pose proof Hg2 as (Hk21 & Hk22 & Hpre2 & Hcont2 & _ & _).
  assert (∀ k l, (k, l) ∈ d1 →
            h2 !! l = Some (mkAggregated k (with_group self k acts1))) as Hold_at.
  { intros k l Hin. destruct (Hcont1 _ _ Hin) as [_ Hl].
    by apply (prefix_lookup_Some _ _ _ _ Hl Hpre2). }
  assert (∀ k l, (k, l) ∈ d2 →
            h2 !! l = Some (mkAggregated k (with_group self k acts2))) as Hnew_at.
  { intros k l Hin. by destruct (Hcont2 _ _ Hin) as [_ Hl]. }
  assert (allocated h2 old) as Hall_old.
  { apply Forall_forall. intros l Hl. rewrite Hold in Hl.
    apply list_elem_of_fmap in Hl as ([k l'] & -> & Hin).
    by eapply lookup_lt_Some, Hold_at. }
  assert (allocated h2 new) as Hall_new.
  { apply Forall_forall. intros l Hl. rewrite Hnew in Hl.
    apply list_elem_of_fmap in Hl as ([k l'] & -> & Hin).
    by eapply lookup_lt_Some, Hnew_at. }
  destruct (merge_result h2 old new Hall_old Hall_new) as (ch & ext & Hmerge & HF).
  eexists _, ch, _. split; [exact Hmerge|]. split.
  - intros k Hw1 Hw2.
    apply (grouped_key_iff _ _ _ _ _ Hg1) in Hw1.
    apply (grouped_key_iff _ _ _ _ _ Hg2) in Hw2.
    apply list_elem_of_fmap in Hw1 as ([k1 o] & Heq1 & Hin1).
    apply list_elem_of_fmap in Hw2 as ([k2 b] & Heq2 & Hin2).
    simpl in Heq1, Heq2. subst k1 k2.
    assert (old_for h2 old k = Some o) as Hfor.
    { unfold old_for.
      by rewrite (grouped_filter_key _ _ _ _ _ _ _ _ Hg1 Hpre2 Hold Hin1). }
    pose proof (grouped_filter_key _ _ _ _ _ _ _ _ Hg2 (reflexivity _) Hnew Hin2)
      as Honce.
    destruct (merge_pair_for_key h2 old new k o b _ _ Hall_old Hall_new
                Hfor (Hold_at _ _ Hin1) Honce (Hnew_at _ _ Hin2) _ _ _ _ Hmerge)
      as (m & Hfilter & Ho & Hm).
    exists o, m. split; [done|]. split; [done|].
    rewrite Hm. simpl. unfold with_group. by rewrite filter_app.
  - intros b. rewrite list_elem_of_filter. split.
    + intros [Hnot Hb]. split; [done|]. rewrite Hnew in Hb.
      apply list_elem_of_fmap in Hb as ([k b'] & -> & Hin). simpl in *.
      exists k. pose proof (Hnew_at _ _ Hin) as Hb.
      assert (group_of h2 b' = Some k) as Hgb by (unfold group_of; by rewrite Hb).
      split; [done|].
      destruct (decide (with_group self k acts1 = [])) as [|Hw]; [done|].
      destruct Hnot. apply (grouped_key_iff _ _ _ _ _ Hg1) in Hw.
      apply list_elem_of_fmap in Hw as ([k1 o] & Heq1 & Hin1). simpl in Heq1. subst k1.
      apply Exists_exists. exists o. split.
      * rewrite Hold. by apply (list_elem_of_fmap_2 snd) in Hin1.
      * rewrite Hgb. unfold group_of. by rewrite (Hold_at _ _ Hin1).
    + intros (Hb & k & Hgb & Hw). split; [|done].
      intros (o & Ho & Hgo)%Exists_exists. rewrite Hgb in Hgo.
      rewrite Hold in Ho. apply list_elem_of_fmap in Ho as ([k1 o'] & -> & Hin1).
      simpl in *. unfold group_of in Hgo. rewrite (Hold_at _ _ Hin1) in Hgo.
      injection Hgo as ->.
      assert (k ∈ d1.*1) as Hk by by apply (list_elem_of_fmap_2 fst) in Hin1.
      by apply (grouped_key_iff _ _ _ _ _ Hg1) in Hk.
Qed.
End merge_grouped.

Lemma omap_lookup_Forall2 {A} (h : list A) (ls : list nat) :
  Forall (λ l, is_Some (h !! l)) ls →
  Forall2 (λ l b, h !! l = Some b) ls (omap (h !!.) ls).
Proof.
  induction 1 as [|l ls [b Hb] _ IH]; [constructor|].
  rewrite omap_cons, Hb. by constructor.
Qed.

Lemma grouped_buckets {K} `{EqDecision K} (self : Aggregator K)
    (h h' : heap K) input d :
  grouped self h input d h' →
  omap (h' !!.) d.*2 = (λ kl, mkAggregated kl.1 (with_group self kl.1 input)) <$> d.
Proof.
  intros (_ & _ & _ & Hcont & _ & _).
  induction d as [|[k l] d IH]; [done|].
  rewrite !fmap_cons, omap_cons. simpl.
  destruct (Hcont k l) as [_ ->]; [left|]. f_equal.
  apply IH. intros k' l' Hin. apply Hcont. by right.
Qed.

(** The buckets of a grouping, listed in any order. *)
Lemma grouped_ranked_buckets {K} `{EqDecision K} (self : Aggregator K)
    (h h' : heap K) input d ranked :
  grouped self h input d h' → ranked ≡ₚ d.*2 →
  (∀ l b, h !! l = Some b → h' !! l = Some b) ∧
  Forall (λ l, h !! l = None) ranked ∧
  NoDup ranked ∧
  Forall2 (λ l b, h' !! l = Some b) ranked (omap (h' !!.) ranked) ∧
  NoDup (group <$> omap (h' !!.) ranked) ∧
  mjoin (activities <$> omap (h' !!.) ranked) ≡ₚ input.
Proof.
  intros Hg Hperm.
  pose proof (grouped_buckets _ _ _ _ _ Hg) as Hbuckets.
  pose proof Hg as (Hk1 & Hk2 & Hpre & Hcont & Hdone & _).
  assert (omap (h' !!.) ranked ≡ₚ
          (λ kl, mkAggregated kl.1 (with_group self kl.1 input)) <$> d)
    as Hb by by rewrite Hperm, Hbuckets.
  split; [intros l b Hl; by eapply prefix_lookup_Some|].
  split; [|split; [by rewrite Hperm|split; [|split]]].
  - rewrite Hperm. apply Forall_forall.
    intros l ([k l'] & -> & Hin)%list_elem_of_fmap. simpl.
    destruct (Hcont _ _ Hin) as [Hle _]. by apply lookup_ge_None_2.
  - apply omap_lookup_Forall2. rewrite Hperm. apply Forall_forall.
    intros l ([k l'] & -> & Hin)%list_elem_of_fmap. simpl.
    destruct (Hcont _ _ Hin) as [_ Hl]. by eexists.
  - rewrite Hb, <- list_fmap_compose. exact Hk1.
  - rewrite Hb, <- list_fmap_compose.
    etransitivity; [|exact (with_group_join _ d.*1 input Hk1 Hdone)].
    by rewrite <- list_fmap_compose.
Qed.

(** X13. With a modulus other than zero, [aggregate] of [ModulusAggregator]
    changes no bucket that the store held before the call and returns new
    buckets, no bucket twice and no two with the same group key, whose
    activities together are the input activities, each as often as it is
    in the input. *)
Theorem modulus_aggregate_buckets (dict_values : dict Z loc → list loc)
    modulus (h : heap Z) input :
  (∀ d, dict_values d ≡ₚ d.*2) → modulus ≠ 0%Z →
  ∃ ranked h' buckets,
    BaseAggregator.aggregate dict_values (ModulusAggregator.self modulus) input h =
      Ok (ranked, h') ∧
    (∀ l b, h !! l = Some b → h' !! l = Some b) ∧
    Forall (λ l, h !! l = None) ranked ∧
    NoDup ranked ∧
    Forall2 (λ l b, h' !! l = Some b) ranked buckets ∧
    NoDup (group <$> buckets) ∧
    mjoin (activities <$> buckets) ≡ₚ input.
Proof.
  intros Hvalues Hm.
  destruct (modulus_aggregate_grouped dict_values modulus h input Hvalues Hm)
    as (d & ranked & h' & Hrun & Hagg & _ & Hperm & Hg).
  exists ranked, h', (omap (h' !!.) ranked). split; [done|].
  by apply (grouped_ranked_buckets _ _ _ _ _ _ Hg Hperm).
Qed.

(** X18. [aggregate] of [RecentVerbAggregator] returns for every input.  It
    changes no bucket that the store held before the call and returns new
    buckets, no bucket twice and no two with the same group key, whose
    activities together are the input activities, each as often as it is
    in the input. *)
Theorem recent_verb_aggregate_buckets (dict_values : dict string loc → list loc)
    (date_str : Z → string) (h : heap string) input :
  (∀ d, dict_values d ≡ₚ d.*2) →
  ∃ ranked h' buckets,
    BaseAggregator.aggregate dict_values (RecentVerbAggregator.self date_str)
      input h = Ok (ranked, h') ∧
    (∀ l b, h !! l = Some b → h' !! l = Some b) ∧
    Forall (λ l, h !! l = None) ranked ∧
    NoDup ranked ∧
    Forall2 (λ l b, h' !! l = Some b) ranked buckets ∧
    NoDup (group <$> buckets) ∧
    mjoin (activities <$> buckets) ≡ₚ input.
Proof.
  intros Hvalues.
  assert (Forall (λ a, is_Ok (@get_group _ (RecentVerbAggregator.self date_str) a))
            input) as Hacts.
  { apply Forall_forall. intros a _. by eexists. }
  destruct (group_activities_grouped _ h input Hacts) as (d & h' & Hrun & Hg).
  assert (allocated h' (dict_values d)) as Hall.
  { pose proof (grouped_values_nonempty _ _ _ _ _ Hg) as Hne.
    rewrite <- (Hvalues d) in Hne. eapply Forall_impl; [exact Hne|]. simpl.
    intros a (b & Ha & _). by eapply lookup_lt_Some. }
  destruct (recent_verb_rank_Ok h' _ Hall) as (ranked & Hrank & Hperm).
  rewrite Hvalues in Hperm.
  exists ranked, h', (omap (h' !!.) ranked). split.
  - unfold BaseAggregator.aggregate. rewrite (bind_Ok _ _ _ _ _ Hrun). simpl.
    by rewrite (bind_Ok _ _ _ _ _ Hrank).
  - by apply (grouped_ranked_buckets _ _ _ _ _ _ Hg Hperm).
Qed.

(** X14. [merge] of the results of two [aggregate] calls of
    [ModulusAggregator], the old generation made from [acts1] and the new
    one from [acts2]: for each key that both have, [changed] has exactly
    one pair, of the unchanged old bucket and a bucket with the activities
    of [acts1] followed by those of [acts2] that have the key, which is the
    bucket that grouping [acts1 ++ acts2] gives for the key; [new] has the
    buckets of the new generation whose key [acts1] does not have. *)
Theorem modulus_merge_of_aggregates (dict_values : dict Z loc → list loc)
    modulus (h : heap Z) acts1 acts2 :
  (∀ d, dict_values d ≡ₚ d.*2) → modulus ≠ 0%Z →
  ∃ old h1 new h2 nw ch h3,
    BaseAggregator.aggregate dict_values (ModulusAggregator.self modulus) acts1 h =
      Ok (old, h1) ∧
    BaseAggregator.aggregate dict_values (ModulusAggregator.self modulus) acts2 h1 =
      Ok (new, h2) ∧
    BaseAggregator.merge old new h2 = Ok ((nw, ch, []), h3) ∧
    (∀ k, with_group (ModulusAggregator.self modulus) k acts1 ≠ [] →
          with_group (ModulusAggregator.self modulus) k acts2 ≠ [] →
       ∃ o m, filter (λ p, group_of h2 p.1 = Some k) ch = [(o, m)] ∧
              h3 !! o = Some (mkAggregated k
                (with_group (ModulusAggregator.self modulus) k acts1)) ∧
              h3 !! m = Some (mkAggregated k
                (with_group (ModulusAggregator.self modulus) k (acts1 ++ acts2)))) ∧
    (∀ b, b ∈ nw ↔
          b ∈ new ∧
          ∃ k, group_of h2 b = Some k ∧
               with_group (ModulusAggregator.self modulus) k acts1 = []).
Proof.
  intros Hvalues Hm.
  destruct (modulus_aggregate_grouped dict_values modulus h acts1 Hvalues Hm)
    as (d1 & old & h1 & _ & Hagg1 & _ & Hperm1 & Hg1).
  destruct (modulus_aggregate_grouped dict_values modulus h1 acts2 Hvalues Hm)
    as (d2 & new & h2 & _ & Hagg2 & _ & Hperm2 & Hg2).
  destruct (merge_of_grouped _ _ _ _ _ _ _ _ _ _ Hg1 Hg2 Hperm1 Hperm2)
    as (nw & ch & h3 & Hmerge & Hchanged & Hnew).
  by exists old, h1, new, h2, nw, ch, h3.
Qed.

(** X15. With the modulus zero, [aggregate] of [ModulusAggregator] returns
    the empty list for no activities and raises [ZeroDivisionError] for
    any other input. *)
Theorem modulus_zero_aggregate (dict_values : dict Z loc → list loc)
    (h : heap Z) input :
  (∀ d, dict_values d ≡ₚ d.*2) →
  BaseAggregator.aggregate dict_values (ModulusAggregator.self 0) input h =
    match input with
    | [] => Ok ([], h)
    | _ :: _ => Raise (ZeroDivisionError "integer division or modulo by zero")
    end.
Proof.
  intros Hvalues.
  unfold BaseAggregator.aggregate, BaseAggregator.group_activities.
  destruct input as [|a input]; simpl.
  - assert (dict_values [] = []) as H1
      by (apply Permutation_nil; symmetry; apply (Hvalues [])).
    unfold bind, ret. by rewrite H1.
  - apply bind_Raise, bind_Raise.
    by apply (group_step_raise (ModulusAggregator.self 0)).
Qed.

(** ** [RecentVerbAggregator]: the group key *)
Lemma pretty_N_go_no_dash x s :
  no_dash s → no_dash (pretty_N_go x s) ∧
  (String.length s ≤ String.length (pretty_N_go x s))%nat.
Proof.
  revert s. induction (N.lt_wf_0 x) as [x _ IH]; intros s Hs.
  assert (x = 0 ∨ 0 < x)%N as [->|Hx] by lia.
  - by rewrite pretty_N_go_0.
  - rewrite pretty_N_go_step by done.
    destruct (IH (x `div` 10)%N ltac:(by apply N.div_lt)
                (String (pretty_N_char (x `mod` 10)) s)) as [Hnd Hlen].
    + split; [|done]. unfold pretty_N_char. by repeat case_match.
    + split; [done|]. simpl in Hlen. lia.
Qed.

Lemma pretty_N_no_dash (x : N) : no_dash (pretty x) ∧ pretty x ≠ "".
Proof.
  unfold pretty, pretty_N. case_decide as Hx; [done|].
  assert (0 < x)%N as Hpos by lia. rewrite pretty_N_go_step by done.
  destruct (pretty_N_go_no_dash (x `div` 10)%N
              (String (pretty_N_char (x `mod` 10)) "")) as [Hnd Hlen].
  - split; [|done]. unfold pretty_N_char. by repeat case_match.
  - split; [done|]. intros Heq. rewrite Heq in Hlen. simpl in Hlen. lia.
Qed.

Lemma append_dash_inj s1 s2 d1 d2 :
  no_dash s1 → no_dash s2 →
  s1 +:+ "-" +:+ d1 = s2 +:+ "-" +:+ d2 → s1 = s2 ∧ d1 = d2.
Proof.
  revert s2. induction s1 as [|c1 s1 IH]; intros [|c2 s2]; simpl.
  - intros _ _ Heq. by simplify_eq/=.
  - intros _ [Hc2 _] Heq. by simplify_eq/=.
  - intros [Hc1 _] _ Heq. by simplify_eq/=.
  - intros [_ H1] [_ H2] Heq. injection Heq as -> Heq.
    destruct (IH _ H1 H2 Heq) as [-> ->]. done.
Qed.

(** The text of an integer followed by a dash and any text determines the
    integer and the text. *)
Lemma pretty_Z_dash_inj (v1 v2 : Z) d1 d2 :
  pretty v1 +:+ "-" +:+ d1 = pretty v2 +:+ "-" +:+ d2 → v1 = v2 ∧ d1 = d2.
Proof.
  assert (∀ v : Z, (0 ≤ v)%Z → no_dash (pretty v) ∧ pretty v ≠ "") as Hnonneg.
  { intros [|p|p] Hv; [done|apply (pretty_N_no_dash (N.pos p))|lia]. }
  assert (∀ v : Z, (v < 0)%Z →
            ∃ s, pretty v = "-" +:+ s ∧ no_dash s ∧ s ≠ "" ∧ s = pretty (- v)%Z)
    as Hneg.
  { intros [|p|p] Hv; [lia|lia|]. exists (pretty (N.pos p)).
    split; [done|]. destruct (pretty_N_no_dash (N.pos p)) as [H1 H2]. done. }
  intros Heq. destruct (decide (0 ≤ v1)%Z) as [Hv1|Hv1];
    destruct (decide (0 ≤ v2)%Z) as [Hv2|Hv2].
  - destruct (Hnonneg v1 Hv1) as [H1 _], (Hnonneg v2 Hv2) as [H2 _].
    destruct (append_dash_inj _ _ _ _ H1 H2 Heq) as [Hp ->].
    split; [|done]. by apply (inj pretty).
  - destruct (Hnonneg v1 Hv1) as [H1 Hne1].
    destruct (Hneg v2 ltac:(lia)) as (s & Hs & _). rewrite Hs in Heq.
    destruct (pretty v1) as [|c s1]; [done|]. simpl in *.
    injection Heq as -> _. by destruct H1.
  - destruct (Hnonneg v2 Hv2) as [H2 Hne2].
    destruct (Hneg v1 ltac:(lia)) as (s & Hs & _). rewrite Hs in Heq.
    destruct (pretty v2) as [|c s2]; [done|]. simpl in *.
    injection Heq as <- _. by destruct H2.
  - destruct (Hneg v1 ltac:(lia)) as (s1 & Hs1 & H1 & _ & Hp1).
    destruct (Hneg v2 ltac:(lia)) as (s2 & Hs2 & H2 & _ & Hp2).
    rewrite Hs1, Hs2 in Heq. simpl in Heq. injection Heq as Heq.
    destruct (append_dash_inj _ _ _ _ H1 H2 Heq) as [Hp ->].
    split; [|done]. rewrite Hp1, Hp2 in Hp. apply (inj pretty) in Hp. lia.
Qed.

(** X17. [get_group] of [RecentVerbAggregator] never raises, and it gives
    two activities the same group exactly when they have the same verb id
    and the same date text. *)
Theorem recent_verb_get_group_same_iff (date_str : Z → string) a1 a2 :
  is_Ok (RecentVerbAggregator.get_group date_str a1) ∧
  (RecentVerbAggregator.get_group date_str a1 =
   RecentVerbAggregator.get_group date_str a2 ↔
   verb_id a1 = verb_id a2 ∧ date_str (time a1) = date_str (time a2)).
Proof.
  unfold RecentVerbAggregator.get_group. split; [by eexists|]. split.
  - intros [= Heq]. by apply pretty_Z_dash_inj.
  - by intros [-> ->].
Qed.

(** ** [merge] with a key twice in the old generation *)
Section merge_shadowed.
Context {K : Type} `{EqDecision K}.
Implicit Types (h : heap K) (old new : list loc) (k : K).

(** X19. When two buckets of the old generation have the same key, [merge]
    pairs the buckets of the new generation with the later one: a bucket of
    the old generation that comes, and comes only, before another bucket
    with its key is the first component of no pair of [changed]. *)
Theorem merge_old_duplicate_last_wins h old1 o old2 new :
  allocated h (old1 ++ o :: old2) → allocated h new →
  o ∉ old2 → Exists (λ o', group_of h o' = group_of h o) old2 →
  ∃ nw ch h',
    BaseAggregator.merge (old1 ++ o :: old2) new h = Ok ((nw, ch, []), h') ∧
    ∀ p, p ∈ ch → p.1 ≠ o.
Proof.
  intros Hold Hnew Hnot Hdup.
  destruct (merge_result h _ new Hold Hnew) as (ch & ext & Hmerge & HF).
  eexists _, ch, _. split; [exact Hmerge|].
  intros [o1 m] Hin. simpl. intros ->.
  destruct (merge_result_pair _ _ _ _ _ _ _ HF Hin)
    as (b & _ & _ & Hmatch & _). simpl in Hmatch.
  pose proof (matching_old_Some _ _ _ _ Hmatch) as (_ & [k Hk] & Hgo).
  revert Hmatch. unfold matching_old. rewrite Hk. simpl. unfold old_for.
  rewrite filter_app, filter_cons.
  apply Exists_exists in Hdup as (o' & Ho' & Hgo').
  assert (o' ∈ filter (λ a, group_of h a = Some k) old2) as Hin'.
  { apply list_elem_of_filter. split; [congruence|done]. }
  destruct (filter (λ a, group_of h a = Some k) old2) as [|x l] eqn:Hf;
    [by apply elem_of_nil in Hin'|].
  assert (∀ l1, last (l1 ++ x :: l) = last (x :: l)) as Hsuffix.
  { intros l1. rewrite last_app.
    destruct (last (x :: l)) as [y|] eqn:Hy; [done|]. by apply last_None in Hy. }
  intros Hlast.
  assert (last (x :: l) = Some o) as Hlast'.
  { case_decide; [rewrite (cons_middle o), app_assoc in Hlast|];
      by rewrite Hsuffix in Hlast. }
  apply last_Some_elem_of in Hlast'. rewrite <- Hf in Hlast'.
  apply list_elem_of_filter in Hlast' as [_ Ho_in]. done.
Qed.
End merge_shadowed.

(** ** The order of the result of [aggregate] of [ModulusAggregator] *)

(** X20. With a modulus other than zero, [aggregate] of [ModulusAggregator]
    returns its buckets in strictly ascending order of their sort keys, the
    greatest ids of their activities: no two buckets have the same one. *)
Theorem modulus_aggregate_strictly_ascending
    (dict_values : dict Z loc → list loc) modulus (h : heap Z) input :
  (∀ d, dict_values d ≡ₚ d.*2) → modulus ≠ 0%Z →
  ∃ (ranked : list (Z * loc)) h',
    BaseAggregator.aggregate dict_values (ModulusAggregator.self modulus) input h =
      Ok (ranked.*2, h') ∧
    Forall (λ kl, ModulusAggregator.sort_key kl.2 h' = Ok (kl.1, h')) ranked ∧
    StronglySorted (λ x y, (x.1 < y.1)%Z) ranked.
Proof.
  intros Hvalues Hm.
  destruct (modulus_aggregate_grouped dict_values modulus h input Hvalues Hm)
    as (d & ranked0 & h' & Hrun & Hagg & Hrank & Hperm & Hg).
  pose proof (grouped_values_nonempty _ _ _ _ _ Hg) as Hne.
  rewrite <- (Hvalues d) in Hne.
  destruct (modulus_rank_ascending h' _ Hne) as (ranked & Hrank' & Hkeys & Hs).
  rewrite Hrank in Hrank'. injection Hrank' as ->.
  exists ranked, h'. split; [done|]. split; [done|].
  assert (NoDup ranked.*2) as Hnd.
  { rewrite Hperm. by destruct Hg as (_ & ? & _). }
  assert (∀ x, x ∈ ranked → x.2 ∈ d.*2) as Hin_d.
  { intros x Hx. rewrite <- Hperm. by apply list_elem_of_fmap_2. }
  clear Hagg Hrank Hperm Hne.
  induction Hs as [|x l Hs IH Hx]; [constructor|].
  rewrite fmap_cons in Hnd. apply NoDup_cons in Hnd as [Hnot Hnd].
  apply Forall_cons in Hkeys as [Hkx Hkeys].
  constructor.
  - apply IH; [done|done|]. intros y Hy. apply Hin_d. by right.
  - rewrite Forall_forall in Hx, Hkeys. apply Forall_forall. intros y Hy.
    specialize (Hx y Hy). destruct (decide (x.1 = y.1)) as [Heq|]; [|lia].
    destruct Hnot.
    assert (x.2 = y.2) as ->; [|by apply list_elem_of_fmap_2].
    apply (modulus_grouped_keys_inj modulus h h' input d Hm Hg _ _ x.1).
    + apply Hin_d. left.
    + apply Hin_d. by right.
    + done.
    + rewrite Heq. by apply Hkeys.
Qed.

(** ** The further properties on concrete inputs *)
Lemma insertion_order_Permutation (d : dict Z loc) : insertion_order d ≡ₚ d.*2.
Proof. reflexivity. Qed.

Lemma reverse_order_Permutation (d : dict Z loc) : reverse_order d ≡ₚ d.*2.
Proof. apply reverse_Permutation. Qed.

Lemma default_all_Ok :
  Forall (λ a, is_Ok (@get_group Z ModulusAggregator.default a)) [A1; A2; A3; A4].
Proof. repeat constructor; eexists; reflexivity. Qed.

Lemma store_ab_allocated_0 : allocated store_ab [0].
Proof. unfold allocated; repeat constructor; simpl; lia. Qed.

Lemma store_ab_allocated_2 : allocated store_ab [2].
Proof. unfold allocated; repeat constructor; simpl; lia. Qed.

Lemma store_aa_allocated_12 : allocated store_aa [1; 2].
Proof. unfold allocated; repeat constructor; simpl; lia. Qed.

Lemma group_activities_one_bucket_per_key_witness :
  Forall (λ a, is_Ok (@get_group Z ModulusAggregator.default a)) [A1; A2; A3; A4] ∧
  ∃ d h',
    BaseAggregator.group_activities ModulusAggregator.default [A1; A2; A3; A4] [] =
      Ok (d, h') ∧
    NoDup d.*1 ∧ NoDup d.*2 ∧
    length h' = (length (@nil (AggregatedActivity Z)) + length d)%nat ∧
    (length d ≤ length [A1; A2; A3; A4])%nat.
Proof.
  split; [exact default_all_Ok|].
  destruct (group_activities_one_bucket_per_key ModulusAggregator.default []
              [A1; A2; A3; A4] default_all_Ok)
    as (d & h' & Hrun & _ & Hk1 & Hk2 & _ & _ & Hlen & Hle).
  exists d, h'. repeat split; assumption.
Defined.

Lemma group_activities_partition_witness :
  Forall (λ a, is_Ok (@get_group Z ModulusAggregator.default a)) [A1; A2; A3; A4] ∧
  ∃ d h' buckets,
    BaseAggregator.group_activities ModulusAggregator.default [A1; A2; A3; A4] [] =
      Ok (d, h') ∧
    Forall2 (λ kl b, h' !! kl.2 = Some b ∧ group b = kl.1) d buckets ∧
    mjoin (activities <$> buckets) ≡ₚ [A1; A2; A3; A4].
Proof.
  split; [exact default_all_Ok|].
  exact (group_activities_partition ModulusAggregator.default []
           [A1; A2; A3; A4] default_all_Ok).
Defined.

Lemma group_activities_raises_witness :
  Forall (λ a, is_Ok (@get_group Z (ModulusAggregator.self 0) a)) [] ∧
  @get_group Z (ModulusAggregator.self 0) A1 =
    Raise (ZeroDivisionError "integer division or modulo by zero") ∧
  BaseAggregator.group_activities (ModulusAggregator.self 0) ([] ++ A1 :: [A2]) [] =
    Raise (ZeroDivisionError "integer division or modulo by zero") ∧
  BaseAggregator.aggregate insertion_order (ModulusAggregator.self 0)
    ([] ++ A1 :: [A2]) [] =
    Raise (ZeroDivisionError "integer division or modulo by zero").
Proof.
  split; [constructor|]. split; [reflexivity|].
  exact (group_activities_raises (ModulusAggregator.self 0) insertion_order
           [] [] A1 [A2] _ (Forall_nil_2 _) eq_refl).
Defined.

Lemma merge_disjoint_keys_witness :
  allocated store_ab [0] ∧ allocated store_ab [2] ∧
  Forall (λ b, ¬ key_in store_ab [0] b) [2] ∧
  BaseAggregator.merge [0] [2] store_ab = Ok (([2], [], []), store_ab).
Proof.
  assert (Forall (λ b, ¬ key_in store_ab [0] b) [2]) as Hdisj.
  { repeat constructor. intros Hex.
    apply Exists_cons in Hex as [Hex|Hex]; [discriminate Hex|].
    by apply Exists_nil in Hex. }
  split; [exact store_ab_allocated_0|]. split; [exact store_ab_allocated_2|].
  split; [exact Hdisj|].
  exact (merge_disjoint_keys store_ab [0] [2]
           store_ab_allocated_0 store_ab_allocated_2 Hdisj).
Defined.

Lemma merge_allocates_one_copy_per_pair_witness :
  allocated store_aa [0] ∧ allocated store_aa [1; 2] ∧
  ∃ nw ch h',
    BaseAggregator.merge [0] [1; 2] store_aa = Ok ((nw, ch, []), h') ∧
    ch.*2 = seq (length store_aa) (length ch) ∧
    length h' = (length store_aa + length ch)%nat ∧
    length ch = length (filter (key_in store_aa [0]) [1; 2]).
Proof.
  assert (allocated store_aa [0]) as Hold
    by (unfold allocated; repeat constructor; simpl; lia).
  split; [exact Hold|]. split; [exact store_aa_allocated_12|].
  exact (merge_allocates_one_copy_per_pair store_aa [0] [1; 2]
           Hold store_aa_allocated_12).
Defined.

Lemma merge_drops_old_only_buckets_witness :
  allocated store_ab [0] ∧ allocated store_ab [2] ∧ 0 ∈ [0] ∧
  Forall (λ b, group_of store_ab b ≠ group_of store_ab 0) [2] ∧
  ∃ nw ch h',
    BaseAggregator.merge [0] [2] store_ab = Ok ((nw, ch, []), h') ∧
    (0 ∉ nw) ∧ (∀ p, p ∈ ch → p.1 ≠ 0 ∧ p.2 ≠ 0).
Proof.
  assert (0 ∈ [0]) as Hin by left.
  assert (Forall (λ b, group_of store_ab b ≠ group_of store_ab 0) [2]) as Hkeys
    by (repeat constructor; discriminate).
  split; [exact store_ab_allocated_0|]. split; [exact store_ab_allocated_2|].
  split; [exact Hin|]. split; [exact Hkeys|].
  exact (merge_drops_old_only_buckets store_ab [0] [2] 0
           store_ab_allocated_0 store_ab_allocated_2 Hin Hkeys).
Defined.

Lemma merge_old_duplicate_last_wins_witness :
  allocated store_aa ([] ++ 0 :: [1]) ∧ allocated store_aa [2] ∧
  (0 ∉ [1]) ∧ Exists (λ o', group_of store_aa o' = group_of store_aa 0) [1] ∧
  ∃ nw ch h',
    BaseAggregator.merge ([] ++ 0 :: [1]) [2] store_aa = Ok ((nw, ch, []), h') ∧
    ∀ p, p ∈ ch → p.1 ≠ 0.
Proof.
  assert (allocated store_aa ([] ++ 0 :: [1])) as Hold
    by (unfold allocated; repeat constructor; simpl; lia).
  assert (allocated store_aa [2]) as Hnew
    by (unfold allocated; repeat constructor; simpl; lia).
  assert (0 ∉ [1]) as Hnot.
  { intros Hin. apply list_elem_of_singleton in Hin. discriminate Hin. }
  assert (Exists (λ o', group_of store_aa o' = group_of store_aa 0) [1]) as Hdup
    by (constructor; reflexivity).
  split; [exact Hold|]. split; [exact Hnew|]. split; [exact Hnot|].
  split; [exact Hdup|].
  exact (merge_old_duplicate_last_wins store_aa [] 0 [1] [2] Hold Hnew Hnot Hdup).
Defined.

Lemma three_ne_0 : 3%Z ≠ 0%Z.
Proof. lia. Qed.

Lemma modulus_aggregate_bucket_bound_witness :
  (∀ d, insertion_order d ≡ₚ d.*2) ∧ 3%Z ≠ 0%Z ∧
  ∃ ranked h',
    BaseAggregator.aggregate insertion_order (ModulusAggregator.self 3)
      [A1; A2; A3; A4] [] = Ok (ranked, h') ∧
    (length ranked ≤ Z.to_nat (Z.abs 3))%nat ∧
    (length ranked ≤ length [A1; A2; A3; A4])%nat ∧
    Forall (λ l, ∃ b, h' !! l = Some b ∧
              if decide (0 < 3)%Z
              then (0 ≤ group b < 3)%Z
              else (3 < group b ≤ 0)%Z) ranked.
Proof.
  split; [exact insertion_order_Permutation|]. split; [exact three_ne_0|].
  exact (modulus_aggregate_bucket_bound insertion_order 3 [] [A1; A2; A3; A4]
           insertion_order_Permutation three_ne_0).
Defined.

Lemma modulus_same_bucket_iff_congruent_witness :
  3%Z ≠ 0%Z ∧
  ∃ d h',
    BaseAggregator.group_activities (ModulusAggregator.self 3) [A1; A2; A3; A4] [] =
      Ok (d, h') ∧
    ∀ a1 a2, a1 ∈ [A1; A2; A3; A4] → a2 ∈ [A1; A2; A3; A4] →
      (∃ k l b, dict_get d k = Some l ∧ h' !! l = Some b ∧
                a1 ∈ activities b ∧ a2 ∈ activities b) ↔
      (3 | object_id a1 - object_id a2)%Z.
Proof.
  split; [exact three_ne_0|].
  exact (modulus_same_bucket_iff_congruent 3 [] [A1; A2; A3; A4] three_ne_0).
Defined.

Lemma modulus_aggregate_order_independent_witness :
  (∀ d, insertion_order d ≡ₚ d.*2) ∧ (∀ d, reverse_order d ≡ₚ d.*2) ∧
  BaseAggregator.aggregate insertion_order (ModulusAggregator.self 3)
    [A1; A2; A3; A4] [] =
  BaseAggregator.aggregate reverse_order (ModulusAggregator.self 3)
    [A1; A2; A3; A4] [].
Proof.
  split; [exact insertion_order_Permutation|].
  split; [exact reverse_order_Permutation|].
  exact (modulus_aggregate_order_independent insertion_order reverse_order 3 []
           [A1; A2; A3; A4] insertion_order_Permutation reverse_order_Permutation).
Defined.

Lemma modulus_aggregate_buckets_witness :
  (∀ d, insertion_order d ≡ₚ d.*2) ∧ 3%Z ≠ 0%Z ∧
  ∃ ranked h' buckets,
    BaseAggregator.aggregate insertion_order (ModulusAggregator.self 3)
      [A1; A2; A3; A4] [] = Ok (ranked, h') ∧
    (∀ l b, (@nil (AggregatedActivity Z)) !! l = Some b → h' !! l = Some b) ∧
    Forall (λ l, (@nil (AggregatedActivity Z)) !! l = None) ranked ∧
    NoDup ranked ∧
    Forall2 (λ l b, h' !! l = Some b) ranked buckets ∧
    NoDup (group <$> buckets) ∧
    mjoin (activities <$> buckets) ≡ₚ [A1; A2; A3; A4].
Proof.
  split; [exact insertion_order_Permutation|]. split; [exact three_ne_0|].
  exact (modulus_aggregate_buckets insertion_order 3 [] [A1; A2; A3; A4]
           insertion_order_Permutation three_ne_0).
Defined.

Lemma modulus_merge_of_aggregates_witness :
  (∀ d, insertion_order d ≡ₚ d.*2) ∧ 3%Z ≠ 0%Z ∧
  ∃ old h1 new h2 nw ch h3,
    BaseAggregator.aggregate insertion_order (ModulusAggregator.self 3)
      [A1; A2] [] = Ok (old, h1) ∧
    BaseAggregator.aggregate insertion_order (ModulusAggregator.self 3)
      [A3; A4] h1 = Ok (new, h2) ∧
    BaseAggregator.merge old new h2 = Ok ((nw, ch, []), h3) ∧
    (∀ k, with_group (ModulusAggregator.self 3) k [A1; A2] ≠ [] →
          with_group (ModulusAggregator.self 3) k [A3; A4] ≠ [] →
       ∃ o m, filter (λ p, group_of h2 p.1 = Some k) ch = [(o, m)] ∧
              h3 !! o = Some (mkAggregated k
                (with_group (ModulusAggregator.self 3) k [A1; A2])) ∧
              h3 !! m = Some (mkAggregated k
                (with_group (ModulusAggregator.self 3) k ([A1; A2] ++ [A3; A4])))) ∧
    (∀ b, b ∈ nw ↔
          b ∈ new ∧
          ∃ k, group_of h2 b = Some k ∧
               with_group (ModulusAggregator.self 3) k [A1; A2] = []).
Proof.
  split; [exact insertion_order_Permutation|]. split; [exact three_ne_0|].
  exact (modulus_merge_of_aggregates insertion_order 3 [] [A1; A2] [A3; A4]
           insertion_order_Permutation three_ne_0).
Defined.

Lemma modulus_zero_aggregate_witness :
  (∀ d, insertion_order d ≡ₚ d.*2) ∧
  BaseAggregator.aggregate insertion_order (ModulusAggregator.self 0) [A1] [] =
    Raise (ZeroDivisionError "integer division or modulo by zero") ∧
  BaseAggregator.aggregate insertion_order (ModulusAggregator.self 0) [] [] =
    Ok ([], []).
Proof.
  split; [exact insertion_order_Permutation|]. split.
  - exact (modulus_zero_aggregate insertion_order [] [A1] insertion_order_Permutation).
  - exact (modulus_zero_aggregate insertion_order [] [] insertion_order_Permutation).
Defined.

Lemma values_in_order_Permutation (d : dict string loc) :
  values_in_order d ≡ₚ d.*2.
Proof. reflexivity. Qed.

Lemma recent_verb_aggregate_buckets_witness :
  (∀ d : dict string loc, values_in_order d ≡ₚ d.*2) ∧
  ∃ ranked h' buckets,
    BaseAggregator.aggregate values_in_order
      (RecentVerbAggregator.self (λ t, pretty (t `div` 86400)%Z))
      [A1; A2; A3; A4] [] = Ok (ranked, h') ∧
    (∀ l b, (@nil (AggregatedActivity string)) !! l = Some b → h' !! l = Some b) ∧
    Forall (λ l, (@nil (AggregatedActivity string)) !! l = None) ranked ∧
    NoDup ranked ∧
    Forall2 (λ l b, h' !! l = Some b) ranked buckets ∧
    NoDup (group <$> buckets) ∧
    mjoin (activities <$> buckets) ≡ₚ [A1; A2; A3; A4].
Proof.
  split; [exact values_in_order_Permutation|].
  exact (recent_verb_aggregate_buckets values_in_order
           (λ t, pretty (t `div` 86400)%Z) [] [A1; A2; A3; A4]
           values_in_order_Permutation).
Defined.

Lemma modulus_aggregate_strictly_ascending_witness :
  (∀ d, insertion_order d ≡ₚ d.*2) ∧ 3%Z ≠ 0%Z ∧
  ∃ (ranked : list (Z * loc)) h',
    BaseAggregator.aggregate insertion_order (ModulusAggregator.self 3)
      [A1; A2; A3; A4] [] = Ok (ranked.*2, h') ∧
    Forall (λ kl, ModulusAggregator.sort_key kl.2 h' = Ok (kl.1, h')) ranked ∧
    StronglySorted (λ x y, (x.1 < y.1)%Z) ranked.
Proof.
  split; [exact insertion_order_Permutation|]. split; [exact three_ne_0|].
  exact (modulus_aggregate_strictly_ascending insertion_order 3 []
           [A1; A2; A3; A4] insertion_order_Permutation three_ne_0).
Defined.
